(** * generate_srt.py: narration segmentation and SRT cue timing

    A shallow embedding of [prd-video/scripts/generate_srt.py].

    - A Python [str] is a sequence of Unicode code points: [pystr] is a
      [list N].  Literals are written as UTF-8 Rocq strings and decoded by
      [py].
    - [split_narration] is the [for] loop of the source as a left fold of
      [scan_step] over the characters, followed by the end-of-input handling
      [finish] and the final list comprehension.
    - Python floats are abstracted by the interface [PyFloat]; it has two
      instances: [Q] (exact rational arithmetic, used for the algebraic laws)
      and IEEE binary64 ([PrimFloat.float], used to evaluate the code on
      concrete inputs exactly as CPython does). *)

From Stdlib Require Import String Ascii.
From Stdlib Require Import ZArith NArith List Bool Lia.
From Stdlib Require Import QArith Qround Qpower Lqa.
From Stdlib Require Import PrimFloat FloatOps SpecFloat FloatAxioms.
Import ListNotations.

Set Implicit Arguments.

(** ** Python strings *)

Definition codepoint := N.
Definition pystr := list codepoint.

(** UTF-8 decoding of a Rocq string literal into code points ([need]
    continuation bytes are still expected, [acc] holds the bits read so
    far). *)
Fixpoint utf8 (s : string) (need : nat) (acc : N) : pystr :=
  match s with
  | EmptyString => []
  | String a rest =>
      let b := N_of_ascii a in
      match need with
      | O =>
          if (b <? 0x80)%N then b :: utf8 rest 0 0%N
          else if (b <? 0xE0)%N then utf8 rest 1 (N.land b 0x1F)
          else if (b <? 0xF0)%N then utf8 rest 2 (N.land b 0x0F)
          else utf8 rest 3 (N.land b 0x07)
      | S O => (acc * 64 + N.land b 0x3F)%N :: utf8 rest 0 0%N
      | S k => utf8 rest k (acc * 64 + N.land b 0x3F)%N
      end
  end.

Definition py (s : string) : pystr := utf8 s 0 0%N.

(** [len(s)] *)
Definition len (s : pystr) : Z := Z.of_nat (length s).

(** [bool(s)] for a string or a list: non-empty. *)
Definition truthy {A : Type} (l : list A) : bool :=
  match l with [] => false | _ :: _ => true end.

(** [str.isspace] on one code point (CPython's [_PyUnicode_IsWhitespace]). *)
Definition isspace (c : codepoint) : bool :=
  ((0x09 <=? c) && (c <=? 0x0D) || (0x1C <=? c) && (c <=? 0x20)
   || (c =? 0x85) || (c =? 0xA0) || (c =? 0x1680)
   || (0x2000 <=? c) && (c <=? 0x200A)
   || (c =? 0x2028) || (c =? 0x2029) || (c =? 0x202F) || (c =? 0x205F)
   || (c =? 0x3000))%N.

Fixpoint lstrip (s : pystr) : pystr :=
  match s with
  | [] => []
  | c :: rest => if isspace c then lstrip rest else s
  end.

Definition rstrip (s : pystr) : pystr := rev (lstrip (rev s)).

(** [s.strip()] *)
Definition strip (s : pystr) : pystr := rstrip (lstrip s).

(** [sep.join(parts)] *)
Fixpoint join (sep : pystr) (parts : list pystr) : pystr :=
  match parts with
  | [] => []
  | [p] => p
  | p :: rest => p ++ sep ++ join sep rest
  end.

(** The line feed character as a string. *)
Definition newline : pystr := [10%N].

(** ** split_narration *)

(** [delimiters = set("。，；！？、.,;!?")] *)
Definition delimiters : list codepoint := py "。，；！？、.,;!?".

Definition is_delimiter (ch : codepoint) : bool :=
  existsb (N.eqb ch) delimiters.

(** The variables of the loop. *)
Record scan_state : Type := ScanState {
  segments : list pystr;
  current : pystr;
  current_len : Z
}.

Definition scan_init : scan_state :=
  {| segments := []; current := []; current_len := 0 |}.

(** Both branches of the loop body do the same: [seg = "".join(current).strip()],
    append it when non-empty, reset the buffer. *)
Definition close_buffer (segs : list pystr) (cur : pystr) : scan_state :=
  let seg := strip cur in
  {| segments := if truthy seg then segs ++ [seg] else segs;
     current := [];
     current_len := 0 |}.

(** One iteration of [for ch in text]. *)
Definition scan_step (max_len : Z) (st : scan_state) (ch : codepoint)
  : scan_state :=
  let cur := current st ++ [ch] in
  let n := (current_len st + 1)%Z in
  if is_delimiter ch && (5 <=? n)%Z then close_buffer (segments st) cur
  else if (max_len <=? n)%Z then close_buffer (segments st) cur
  else {| segments := segments st; current := cur; current_len := n |}.

Definition scan (max_len : Z) (st : scan_state) (text : pystr) : scan_state :=
  fold_left (scan_step max_len) text st.

(** [segments[-1] += remaining] on a non-empty list. *)
Definition append_to_last (segs : list pystr) (remaining : pystr)
  : list pystr :=
  removelast segs ++ [last segs [] ++ remaining].

(** The code after the loop, up to the [return]. *)
Definition finish (st : scan_state) : list pystr :=
  if truthy (current st) then
    let remaining := strip (current st) in
    if truthy remaining then
      if truthy (segments st) && (len remaining <? 5)%Z
      then append_to_last (segments st) remaining
      else segments st ++ [remaining]
    else segments st
  else segments st.

Definition split_narration (text : pystr) (max_len : Z) : list pystr :=
  filter (fun s => truthy (strip s)) (finish (scan max_len scan_init text)).

(** ** Integers as text *)

Fixpoint uint_digits (u : Decimal.uint) : pystr :=
  match u with
  | Decimal.Nil => []
  | Decimal.D0 u => 48%N :: uint_digits u
  | Decimal.D1 u => 49%N :: uint_digits u
  | Decimal.D2 u => 50%N :: uint_digits u
  | Decimal.D3 u => 51%N :: uint_digits u
  | Decimal.D4 u => 52%N :: uint_digits u
  | Decimal.D5 u => 53%N :: uint_digits u
  | Decimal.D6 u => 54%N :: uint_digits u
  | Decimal.D7 u => 55%N :: uint_digits u
  | Decimal.D8 u => 56%N :: uint_digits u
  | Decimal.D9 u => 57%N :: uint_digits u
  end.

(** [str(n)] for an [int]. *)
Definition str_int (z : Z) : pystr :=
  match z with
  | Z0 => py "0"
  | Zpos p => uint_digits (Pos.to_uint p)
  | Zneg p => py "-" ++ uint_digits (Pos.to_uint p)
  end.

Definition zfill (width : nat) (s : pystr) : pystr :=
  repeat 48%N (width - length s) ++ s.

(** [f"{z:0Wd}"]: sign-aware zero padding to [width] characters. *)
Definition format_0d (width : nat) (z : Z) : pystr :=
  match z with
  | Zneg p => py "-" ++ zfill (width - 1) (uint_digits (Pos.to_uint p))
  | _ => zfill width (str_int z)
  end.

(** ** The float interface

    The operations that the script applies to [float] values.  [to_int] is
    [int(x)], which raises on an infinity or a NaN ([None]).  [int_truediv]
    is [a / b] on two [int]s.  The divisors of [//] and [%] in the script are
    the non-zero literals 3600, 60 and 1, so their ZeroDivisionError is not
    modelled. *)
Class PyFloat (F : Type) : Type := {
  of_int : Z -> F;
  int_truediv : Z -> Z -> F;
  fadd : F -> F -> F;
  fmul : F -> F -> F;
  ffloordiv : F -> F -> F;
  fmod : F -> F -> F;
  to_int : F -> option Z
}.

Definition bind {A B : Type} (x : option A) (k : A -> option B) : option B :=
  match x with
  | Some a => k a
  | None => None
  end.

Notation "x <- e ;; k" := (bind e (fun x => k))
  (at level 61, e at next level, right associativity).

(** A scene of the JSON document: a [dict] read with [.get], so either key
    may be absent. *)
Record scene (F : Type) : Type := Scene {
  narration : option pystr;
  durationSeconds : option F
}.

(** The document: [data.get("scenes", [])]. *)
Record video_data (F : Type) : Type := VideoData {
  scenes : option (list (scene F))
}.

Definition get {A : Type} (field : option A) (default : A) : A :=
  match field with
  | Some v => v
  | None => default
  end.

(** A subtitle cue: what one iteration of the inner loop formats. *)
Record cue (F : Type) : Type := Cue {
  cue_index : Z;
  cue_start : F;
  cue_end : F;
  cue_text : pystr
}.

Section Timeline.
Context {F : Type} {num : PyFloat F}.

(** *** format_srt_time *)
Definition format_srt_time (seconds : F) : option pystr :=
  hours <- to_int (ffloordiv seconds (of_int 3600)) ;;
  minutes <- to_int (ffloordiv (fmod seconds (of_int 3600)) (of_int 60)) ;;
  secs <- to_int (fmod seconds (of_int 60)) ;;
  millis <- to_int (fmul (fmod seconds (of_int 1)) (of_int 1000)) ;;
  Some (format_0d 2 hours ++ py ":" ++ format_0d 2 minutes ++ py ":"
        ++ format_0d 2 secs ++ py "," ++ format_0d 3 millis).

(** *** generate_srt *)

(** The variables of the outer loop. *)
Record gen_state : Type := GenState {
  lines : list pystr;
  subtitle_index : Z;
  cum_time : F
}.

Definition gen_init : gen_state :=
  {| lines := []; subtitle_index := 1; cum_time := of_int 0 |}.

(** [sum(len(s) for s in segments)] *)
Definition total_len (segs : list pystr) : Z :=
  fold_left (fun acc s => (acc + len s)%Z) segs 0%Z.

(** [duration * (len(seg) / max(total_chars, 1))] *)
Definition seg_duration (duration : F) (total_chars : Z) (seg : pystr) : F :=
  let ratio := int_truediv (len seg) (Z.max total_chars 1) in
  fmul duration ratio.

(** The body of [for seg in segments]. *)
Definition emit_segment (duration : F) (total_chars : Z)
           (st : gen_state) (seg : pystr) : option gen_state :=
  let d := seg_duration duration total_chars seg in
  start_ts <- format_srt_time (cum_time st) ;;
  end_ts <- format_srt_time (fadd (cum_time st) d) ;;
  Some {| lines := lines st ++ [str_int (subtitle_index st);
                                start_ts ++ py " --> " ++ end_ts;
                                seg;
                                []];
          subtitle_index := subtitle_index st + 1;
          cum_time := fadd (cum_time st) d |}.

Definition emit_segments (duration : F) (total_chars : Z)
           (st : gen_state) (segs : list pystr) : option gen_state :=
  fold_left (fun ost seg => st' <- ost ;; emit_segment duration total_chars st' seg)
            segs (Some st).

(** The body of [for scene in scenes]. *)
Definition process_scene (st : gen_state) (sc : scene F) : option gen_state :=
  let narr := get (narration sc) [] in
  let duration := get (durationSeconds sc) (of_int 5) in
  if negb (truthy (strip narr)) then
    Some {| lines := lines st;
            subtitle_index := subtitle_index st;
            cum_time := fadd (cum_time st) duration |}
  else
    let segs := split_narration narr 20 in
    let total_chars := total_len segs in
    emit_segments duration total_chars st segs.

Definition process_scenes (st : gen_state) (scs : list (scene F))
  : option gen_state :=
  fold_left (fun ost sc => st' <- ost ;; process_scene st' sc) scs (Some st).

Definition generate_srt (data : video_data F) : option pystr :=
  st <- process_scenes gen_init (get (scenes data) []) ;;
  Some (join newline (lines st)).

(** *** The cues behind the lines

    The script formats each cue as soon as it is computed.  [scene_cues]
    and [timeline] compute the same indices and times without formatting
    them; [clock] is the pair [(subtitle_index, cum_time)]. *)
Definition clock : Type := (Z * F)%type.

Fixpoint segment_cues (duration : F) (total_chars : Z) (ck : clock)
         (segs : list pystr) : list (cue F) * clock :=
  match segs with
  | [] => ([], ck)
  | seg :: rest =>
      let d := seg_duration duration total_chars seg in
      let c := {| cue_index := fst ck;
                  cue_start := snd ck;
                  cue_end := fadd (snd ck) d;
                  cue_text := seg |} in
      let '(cs, ck') := segment_cues duration total_chars
                                     ((fst ck + 1)%Z, fadd (snd ck) d) rest in
      (c :: cs, ck')
  end.

Definition scene_cues (ck : clock) (sc : scene F) : list (cue F) * clock :=
  let narr := get (narration sc) [] in
  let duration := get (durationSeconds sc) (of_int 5) in
  if negb (truthy (strip narr)) then ([], (fst ck, fadd (snd ck) duration))
  else
    let segs := split_narration narr 20 in
    segment_cues duration (total_len segs) ck segs.

Fixpoint timeline (ck : clock) (scs : list (scene F)) : list (cue F) * clock :=
  match scs with
  | [] => ([], ck)
  | sc :: rest =>
      let '(cs, ck') := scene_cues ck sc in
      let '(cs', ck'') := timeline ck' rest in
      (cs ++ cs', ck'')
  end.

(** The four lines of a cue, as [emit_segment] appends them. *)
Definition render_cue (c : cue F) : option (list pystr) :=
  start_ts <- format_srt_time (cue_start c) ;;
  end_ts <- format_srt_time (cue_end c) ;;
  Some [str_int (cue_index c); start_ts ++ py " --> " ++ end_ts;
        cue_text c; []].

Fixpoint render_cues (cs : list (cue F)) : option (list pystr) :=
  match cs with
  | [] => Some []
  | c :: rest =>
      l <- render_cue c ;;
      ls <- render_cues rest ;;
      Some (l ++ ls)
  end.

End Timeline.

Arguments clock : clear implicits.
Arguments gen_state : clear implicits.

(** ** Exact arithmetic: the rationals as floats without rounding *)

(** [int(q)]: truncation towards zero. *)
Definition Qtrunc (q : Q) : Z :=
  if Qle_bool 0 q then Qfloor q else Qceiling q.

#[export] Instance Q_float : PyFloat Q := {
  of_int := inject_Z;
  int_truediv := fun a b => (inject_Z a / inject_Z b)%Q;
  fadd := Qplus;
  fmul := Qmult;
  ffloordiv := fun a b => inject_Z (Qfloor (a / b));
  fmod := fun a b => (a - b * inject_Z (Qfloor (a / b)))%Q;
  to_int := fun q => Some (Qtrunc q)
}.

(** ** IEEE binary64: Python's [float] as CPython implements it *)

Module Binary64.

(** [float(z)]: the nearest double, ties to even. *)
Definition of_Z (z : Z) : float :=
  SF2Prim (binary_normalize prec emax z 0 false).

(** [int(x)]: truncation; OverflowError on an infinity and ValueError on
    a NaN are [None]. *)
Definition trunc (x : float) : option Z :=
  match Prim2SF x with
  | S754_zero _ => Some 0%Z
  | S754_finite s m e =>
      let v := if (0 <=? e)%Z then (Zpos m * 2 ^ e)%Z
               else (Zpos m / 2 ^ (- e))%Z in
      Some (if s then (- v)%Z else v)
  | S754_infinity _ => None
  | S754_nan => None
  end.

(** C's [floor]. *)
Definition floor (x : float) : float :=
  match Prim2SF x with
  | S754_finite s m e =>
      if (e <? 0)%Z
      then SF2Prim (binary_normalize prec emax
                      ((if s then Zneg m else Zpos m) / 2 ^ (- e))%Z 0 s)
      else x
  | _ => x
  end.

(** C's [fmod]: the exact remainder of the truncated division, with the
    sign of [x]. *)
Definition c_fmod (x y : float) : float :=
  match Prim2SF x, Prim2SF y with
  | S754_nan, _ => nan
  | _, S754_nan => nan
  | S754_infinity _, _ => nan
  | _, S754_zero _ => nan
  | S754_zero _, _ => x
  | S754_finite _ _ _, S754_infinity _ => x
  | S754_finite sx mx ex, S754_finite _ my ey =>
      let e := Z.min ex ey in
      let r := ((Zpos mx * 2 ^ (ex - e)) mod (Zpos my * 2 ^ (ey - e)))%Z in
      SF2Prim (binary_normalize prec emax (if sx then (- r)%Z else r) e sx)
  end.

(** [copysign(0.0, y)] *)
Definition copysign_zero (y : float) : float :=
  if get_sign y then neg_zero else zero.

(** [float.__mod__] ([float_rem] of floatobject.c). *)
Definition py_mod (vx wx : float) : float :=
  let m := c_fmod vx wx in
  if negb (m =? 0)%float then
    if xorb (wx <? 0)%float (m <? 0)%float then (m + wx)%float else m
  else copysign_zero wx.

(** [float.__floordiv__] ([_float_div_mod] of floatobject.c). *)
Definition py_floordiv (vx wx : float) : float :=
  let m := c_fmod vx wx in
  let d := ((vx - m) / wx)%float in
  let d := if negb (m =? 0)%float && xorb (wx <? 0)%float (m <? 0)%float
           then (d - 1)%float else d in
  if negb (d =? 0)%float then
    let fl := floor d in
    if (0.5 <? d - fl)%float then (fl + 1)%float else fl
  else copysign_zero (vx / wx)%float.

End Binary64.

(** [a / b] on two [int]s is the correctly rounded quotient; for operands
    below 2^53, which string lengths are, that is the division of the
    converted operands. *)
#[export] Instance binary64_float : PyFloat float := {
  of_int := Binary64.of_Z;
  int_truediv := fun a b => (Binary64.of_Z a / Binary64.of_Z b)%float;
  fadd := PrimFloat.add;
  fmul := PrimFloat.mul;
  ffloordiv := Binary64.py_floordiv;
  fmod := Binary64.py_mod;
  to_int := Binary64.trunc
}.

(** A document with every key present. *)
Definition doc {F : Type} (l : list (pystr * F)) : video_data F :=
  {| scenes := Some (map (fun p => {| narration := Some (fst p);
                                      durationSeconds := Some (snd p) |}) l) |}.


(** ** Predicates used in the statements *)

Definition nonspace (c : codepoint) : bool := negb (isspace c).

(** The non-whitespace content of a string. *)
Definition content (s : pystr) : pystr := filter nonspace s.

(** The end-of-input code takes its merge branch. *)
Definition merges (st : scan_state) : bool :=
  truthy (current st) && truthy (strip (current st))
  && truthy (segments st) && (len (strip (current st)) <? 5)%Z.

(** Segments and buffer in reading order. *)
Definition flat (st : scan_state) : pystr :=
  concat (segments st) ++ current st.

(** The counter is the length of the buffer and every segment has a
    non-whitespace character. *)
Definition scan_wf (st : scan_state) : Prop :=
  current_len st = len (current st)
  /\ Forall (fun s => truthy (strip s) = true) (segments st).

(** With [max_len >= 1] the buffer stays shorter than [max_len] between
    iterations and no closed segment is longer than [max_len]. *)
Definition scan_bounded (max_len : Z) (st : scan_state) : Prop :=
  current_len st = len (current st)
  /\ (current_len st < max_len)%Z
  /\ Forall (fun s => (len s <= max_len)%Z) (segments st).



(** ** The cues behind the state of generate_srt *)

(** The index and the time of a state. *)
Definition clock_of {F : Type} (st : gen_state F) : clock F :=
  (subtitle_index st, cum_time st).

(** The state after appending [ls] and moving the clock to [ck]. *)
Definition advance {F : Type} (st : gen_state F)
           (ls : list pystr) (ck : clock F) : gen_state F :=
  {| lines := lines st ++ ls; subtitle_index := fst ck; cum_time := snd ck |}.

(** [scene.get("narration", "")] and [scene.get("durationSeconds", 5.0)] *)
Definition narration_of {F : Type} (sc : scene F) : pystr :=
  get (narration sc) [].

Definition duration_of {F : Type} {num : PyFloat F} (sc : scene F) : F :=
  get (durationSeconds sc) (of_int 5).

(** A scene whose narration is empty or whitespace only. *)
Definition blank {F : Type} (sc : scene F) : bool :=
  negb (truthy (strip (narration_of sc))).

(** What the lines of the output are, given the cues. *)
Definition rendered {F : Type} {num : PyFloat F} (st : gen_state F)
           (r : list (cue F) * clock F) : option (gen_state F) :=
  ls <- render_cues (fst r) ;; Some (advance st ls (snd r)).

(** Every cue starts where the previous one ended, the first one at [t]. *)
Fixpoint contiguous {F : Type} (t : F) (cs : list (cue F)) : Prop :=
  match cs with
  | [] => True
  | c :: rest => cue_start c = t /\ contiguous (cue_end c) rest
  end.

(** The indices are [i], [i + 1], ... *)
Fixpoint indexed {F : Type} (i : Z) (cs : list (cue F)) : Prop :=
  match cs with
  | [] => True
  | c :: rest => cue_index c = i /\ indexed (i + 1) rest
  end.

(** ** Statements in exact arithmetic *)


(** The cues that generate_srt formats (see [generate_srt_cues]). *)
Definition cues_of {F : Type} {num : PyFloat F} (data : video_data F)
  : list (cue F) :=
  fst (timeline (1%Z, of_int 0) (get (scenes data) [])).

(** The cues lie between [lo] and [hi], one after the other, none with its
    end before its start. *)
Fixpoint ordered (lo : Q) (cs : list (cue Q)) (hi : Q) : Prop :=
  match cs with
  | [] => (lo <= hi)%Q
  | c :: rest =>
      (lo <= cue_start c)%Q /\ (cue_start c <= cue_end c)%Q
      /\ ordered (cue_end c) rest hi
  end.



(** ** The scenario of the specification and the text of the file *)

Definition ni_hao : pystr := py "你好，世界！今天天气很好。".
Definition ni_hao_1 : pystr := py "你好，世界！".
Definition ni_hao_2 : pystr := py "今天天气很好。".

(** [s.split("\n")] *)
Fixpoint split_lines (s : pystr) : list pystr :=
  match s with
  | [] => [[]]
  | c :: rest =>
      if (c =? 10)%N then [] :: split_lines rest
      else match split_lines rest with
           | l :: ls => (c :: l) :: ls
           | [] => [[c]]
           end
  end.

(** A string without line feed. *)
Definition single_line (s : pystr) : bool :=
  forallb (fun c => negb (c =? 10)%N) s.

(** The layout of the claim: cut at its line feeds, the text that
    generate_srt returns is, cue after cue, the four lines of
    [render_cue]. *)
Definition srt_block_layout {F : Type} {num : PyFloat F}
           (data : video_data F) : Prop :=
  forall out, generate_srt data = Some out ->
              cues_of data <> [] ->
              exists ls, render_cues (cues_of data) = Some ls
                         /\ split_lines out = ls.

(** The string is not empty and its last character is not whitespace. *)
Definition ends_nonspace (s : pystr) : Prop :=
  exists r c, s = r ++ [c] /\ isspace c = false.

(** The string begins with a non-whitespace character. *)
Definition starts_nonspace (s : pystr) : Prop :=
  exists a r, s = a :: r /\ isspace a = false.

(** The last character of the string is a delimiter. *)
Definition ends_with_delimiter (s : pystr) : Prop :=
  exists r c, s = r ++ [c] /\ is_delimiter c = true.

(** Reading a text without whitespace with [max_len >= 1]: the buffer is
    shorter than [max_len], and a closed segment has [max_len] characters or
    ends with a delimiter and has 5 characters or more. *)
Definition scan_breaks (max_len : Z) (st : scan_state) : Prop :=
  current_len st = len (current st)
  /\ (current_len st < max_len)%Z
  /\ forallb nonspace (current st) = true
  /\ Forall (fun s => len s = max_len
                      \/ (ends_with_delimiter s /\ (5 <= len s)%Z))
            (segments st).


(** [math.isfinite(x)]: neither an infinity nor a NaN. *)
Definition isfinite (x : float) : bool :=
  match Prim2SF x with
  | S754_zero _ => true
  | S754_finite _ _ _ => true
  | S754_infinity _ => false
  | S754_nan => false
  end.

(** [s.count(chr(10))] *)
Definition count_newlines (s : pystr) : Z :=
  Z.of_nat (length (filter (fun c => (c =? 10)%N) s)).

(** [srt_content.count(chr(10)) // 4], the number in the message that
    [main] prints. *)
Definition reported_subtitles (srt_content : pystr) : Z :=
  (count_newlines srt_content / 4)%Z.

(** ** Forced cuts *)





(** [2 ^ e] as a rational. *)
Definition pow2 (e : Z) : Q := (2 ^ e)%Q.

(** The rational [m * 2 ^ e]. *)
Definition scaled (m e : Z) : Q := (inject_Z m * pow2 e)%Q.

(** The rational number that a binary64 value stands for; an infinity and
    a NaN stand for none and are given 0. *)
Definition SF2Q (x : spec_float) : Q :=
  match x with
  | S754_finite s m e => if s then (- scaled (Zpos m) e)%Q else scaled (Zpos m) e
  | _ => 0%Q
  end.

Definition to_Q (x : float) : Q := SF2Q (Prim2SF x).

(** The position of a rational [v] with respect to the integers [m] and
    [m + 1], as a [location] records it. *)
Definition inbetween (v : Q) (m : Z) (l : location) : Prop :=
  match l with
  | loc_Exact => (v == inject_Z m)%Q
  | loc_Inexact Lt => (inject_Z m < v /\ v < inject_Z m + (1 # 2))%Q
  | loc_Inexact Eq => (v == inject_Z m + (1 # 2))%Q
  | loc_Inexact Gt => (inject_Z m + (1 # 2) < v /\ v < inject_Z m + 1)%Q
  end.

(** A positive mantissa in canonical position. *)
Definition canonZ (m e : Z) : Prop :=
  (0 < m)%Z /\ fexp prec emax (Zdigits2 m + e) = e.

(** The float that [binary_round_aux] builds from the mantissa and the
    exponent it ends with. *)
Definition SF_of (s : bool) (mz ez : Z) : spec_float :=
  match mz with
  | Z0 => S754_zero s
  | Zpos m =>
      if (ez <=? emax - prec)%Z then S754_finite s m ez else S754_infinity s
  | Zneg _ => S754_nan
  end.

(** [mz * 2 ^ ez] is a rounding of [V]: no number of the format lies
    strictly between them. *)
Definition rounded (V : Q) (mz ez : Z) : Prop :=
  (0 <= mz)%Z
  /\ (forall m0 e0, canonZ m0 e0 ->
         (scaled m0 e0 <= V)%Q -> (scaled m0 e0 <= scaled mz ez)%Q)
  /\ (forall m0 e0, canonZ m0 e0 ->
         (V <= scaled m0 e0)%Q -> (scaled mz ez <= scaled m0 e0)%Q).

(** A zero or a finite number: neither an infinity nor a NaN. *)
Definition SFfinite (x : spec_float) : bool :=
  match x with
  | S754_zero _ => true
  | S754_finite _ _ _ => true
  | _ => false
  end.

(** A NaN, or a number whose sign bit is clear. *)
Definition SFplus_sign (x : spec_float) : bool :=
  match x with
  | S754_zero s => negb s
  | S754_infinity s => negb s
  | S754_finite s _ _ => negb s
  | S754_nan => true
  end.

(** A NaN, or a number that is not negative: a zero of either sign, a
    positive number, the positive infinity. *)
Definition SFnonneg (x : spec_float) : bool :=
  match x with
  | S754_zero _ => true
  | S754_infinity s => negb s
  | S754_finite s _ _ => negb s
  | S754_nan => true
  end.

Definition fnonneg (x : float) : bool := SFnonneg (Prim2SF x).

(** [a] is not above [b], as far as [b] is a number: when [b] is finite, so
    is [a], and [a <= b]. *)
Definition fle (a b : float) : Prop :=
  isfinite b = true -> isfinite a = true /\ (a <=? b)%float = true.

(** The cues lie between the clocks [lo] and [hi], one after the other,
    none with its end before its start, as far as the times are numbers. *)
Fixpoint ordered64 (lo : float) (cs : list (cue float)) (hi : float) : Prop :=
  match cs with
  | [] => fle lo hi
  | c :: rest =>
      fle lo (cue_start c) /\ fle (cue_start c) (cue_end c)
      /\ ordered64 (cue_end c) rest hi
  end.

(** ** Whitespace trimming *)

Lemma content_lstrip s : content (lstrip s) = content s.
Proof.
  unfold content. induction s as [|c s IH]; simpl; [reflexivity|].
  unfold nonspace at 2. destruct (isspace c) eqn:E; simpl; [exact IH|].
  unfold nonspace at 1. rewrite E. reflexivity.
Qed.

Lemma content_rev s : content (rev s) = rev (content s).
Proof.
  unfold content. induction s as [|c s IH]; simpl; [reflexivity|].
  rewrite filter_app, IH. simpl.
  destruct (nonspace c); simpl; [reflexivity|apply app_nil_r].
Qed.

Lemma content_rstrip s : content (rstrip s) = content s.
Proof.
  unfold rstrip.
  rewrite content_rev, content_lstrip, content_rev, rev_involutive.
  reflexivity.
Qed.

Lemma content_strip s : content (strip s) = content s.
Proof. unfold strip. rewrite content_rstrip. apply content_lstrip. Qed.

Lemma content_app a b : content (a ++ b) = content a ++ content b.
Proof. apply filter_app. Qed.

Lemma lstrip_head s c r : lstrip s = c :: r -> isspace c = false.
Proof.
  induction s as [|a s IH]; simpl; [discriminate|].
  destruct (isspace a) eqn:E; [exact IH|].
  intros H. injection H as <- _. exact E.
Qed.

Lemma lstrip_length s : (length (lstrip s) <= length s)%nat.
Proof.
  induction s as [|a s IH]; simpl; [lia|].
  destruct (isspace a); simpl; lia.
Qed.

Lemma strip_length s : (length (strip s) <= length s)%nat.
Proof.
  unfold strip, rstrip. rewrite length_rev.
  etransitivity; [apply lstrip_length|]. rewrite length_rev.
  apply lstrip_length.
Qed.

Lemma len_strip s : (len (strip s) <= len s)%Z.
Proof. unfold len. pose proof (strip_length s). lia. Qed.

(** A non-empty trimmed string ends with a non-whitespace character. *)
Lemma strip_last s :
  strip s <> [] -> exists r c, strip s = r ++ [c] /\ isspace c = false.
Proof.
  unfold strip, rstrip. intros H.
  destruct (lstrip (rev (lstrip s))) as [|c r] eqn:E; [now elim H|].
  exists (rev r), c. split; [reflexivity|].
  eapply lstrip_head; eassumption.
Qed.

Lemma truthy_nil {A} (l : list A) : truthy l = false <-> l = [].
Proof. destruct l; simpl; split; congruence. Qed.

Lemma truthy_cons {A} (l : list A) : truthy l = true <-> l <> [].
Proof. destruct l; simpl; split; congruence. Qed.

(** [s.strip()] is non-empty exactly when [s] has a non-whitespace
    character. *)
Lemma truthy_strip s : truthy (strip s) = truthy (content s).
Proof.
  rewrite <- (content_strip s).
  destruct (strip s) as [|a r] eqn:E; [reflexivity|].
  destruct (strip_last s) as (r' & c & Hs & Hc); [congruence|].
  rewrite E in Hs. change (truthy (a :: r)) with true.
  rewrite Hs, content_app. unfold content at 2. simpl.
  unfold nonspace. rewrite Hc. simpl.
  destruct (content r'); reflexivity.
Qed.

Lemma lstrip_nonspace s : forallb nonspace s = true -> lstrip s = s.
Proof.
  destruct s as [|c r]; simpl; [reflexivity|].
  unfold nonspace at 1. intros H. apply andb_true_iff in H as [H _].
  apply negb_true_iff in H. rewrite H. reflexivity.
Qed.

Lemma strip_nonspace s : forallb nonspace s = true -> strip s = s.
Proof.
  intros H. unfold strip, rstrip. rewrite (lstrip_nonspace _ H).
  rewrite lstrip_nonspace; [apply rev_involutive|].
  rewrite forallb_forall in *. intros x Hx. apply H. now apply in_rev.
Qed.

(** ** The scanning loop *)

Lemma scan_nil max_len st : scan max_len st [] = st.
Proof. reflexivity. Qed.

Lemma scan_cons max_len st ch text :
  scan max_len st (ch :: text) = scan max_len (scan_step max_len st ch) text.
Proof. reflexivity. Qed.

Lemma scan_app max_len st a b :
  scan max_len st (a ++ b) = scan max_len (scan max_len st a) b.
Proof. apply fold_left_app. Qed.

(** Whatever holds initially and is kept by one iteration holds after the
    loop. *)
Lemma scan_invariant (P : scan_state -> Prop) max_len :
  (forall st ch, P st -> P (scan_step max_len st ch)) ->
  forall text st, P st -> P (scan max_len st text).
Proof.
  intros Hstep text. induction text as [|ch text IH]; intros st H.
  - exact H.
  - rewrite scan_cons. apply IH, Hstep, H.
Qed.

(** The three outcomes of one iteration. *)
Lemma scan_step_cases max_len st ch :
  let n := (current_len st + 1)%Z in
  (scan_step max_len st ch = close_buffer (segments st) (current st ++ [ch])
   /\ (is_delimiter ch = true /\ (5 <= n)%Z \/ (max_len <= n)%Z))
  \/ (scan_step max_len st ch
      = {| segments := segments st; current := current st ++ [ch];
           current_len := n |}
      /\ (n < max_len)%Z /\ (is_delimiter ch = false \/ (n < 5)%Z)).
Proof.
  unfold scan_step. simpl.
  destruct (is_delimiter ch) eqn:D; simpl;
    destruct (Z.leb_spec 5 (current_len st + 1)); simpl;
    destruct (Z.leb_spec max_len (current_len st + 1)); simpl; auto 8.
Qed.

Lemma content_nil s : truthy (strip s) = false -> content s = [].
Proof.
  rewrite truthy_strip. intros H. now apply truthy_nil in H.
Qed.

Lemma content_close_buffer segs cur :
  content (flat (close_buffer segs cur)) = content (concat segs ++ cur).
Proof.
  unfold flat, close_buffer. simpl. rewrite app_nil_r.
  destruct (truthy (strip cur)) eqn:E.
  - rewrite concat_app. simpl. rewrite app_nil_r.
    rewrite !content_app, content_strip. reflexivity.
  - rewrite content_app, (content_nil _ E), app_nil_r. reflexivity.
Qed.

Lemma content_scan_step max_len st ch :
  content (flat (scan_step max_len st ch)) = content (flat st ++ [ch]).
Proof.
  destruct (scan_step_cases max_len st ch) as [[-> _]|[-> _]].
  - rewrite content_close_buffer. unfold flat. now rewrite app_assoc.
  - unfold flat. simpl. now rewrite app_assoc.
Qed.

Lemma content_scan max_len text st :
  content (flat (scan max_len st text)) = content (flat st ++ text).
Proof.
  revert st. induction text as [|ch text IH]; intros st.
  - now rewrite app_nil_r.
  - rewrite scan_cons, IH, !content_app, content_scan_step, content_app.
    rewrite <- app_assoc, <- content_app. reflexivity.
Qed.

Lemma concat_append_to_last segs remaining :
  segs <> [] ->
  concat (append_to_last segs remaining) = concat segs ++ remaining.
Proof.
  intros H. unfold append_to_last.
  rewrite (app_removelast_last [] H) at 3.
  rewrite !concat_app. simpl. rewrite !app_nil_r. now rewrite app_assoc.
Qed.

Lemma content_finish st :
  content (concat (finish st)) = content (flat st).
Proof.
  unfold finish, flat.
  destruct (current st) as [|c cur] eqn:Ec; simpl truthy; cbv iota.
  - now rewrite app_nil_r.
  - destruct (truthy (strip (c :: cur))) eqn:Es.
    + destruct (truthy (segments st) && (len (strip (c :: cur)) <? 5)%Z) eqn:Em.
      * apply andb_true_iff in Em as [Hs _]. apply truthy_cons in Hs.
        rewrite (concat_append_to_last _ Hs), !content_app, content_strip.
        reflexivity.
      * rewrite concat_app. simpl. rewrite app_nil_r.
        rewrite !content_app, content_strip. reflexivity.
    + rewrite content_app, (content_nil _ Es), app_nil_r. reflexivity.
Qed.

Lemma content_filter_nonblank l :
  content (concat (filter (fun s => truthy (strip s)) l)) = content (concat l).
Proof.
  induction l as [|s l IH]; simpl; [reflexivity|].
  destruct (truthy (strip s)) eqn:E; simpl; rewrite !content_app, IH.
  - reflexivity.
  - now rewrite (content_nil _ E).
Qed.

Lemma content_split_narration text max_len :
  content (concat (split_narration text max_len)) = content text.
Proof.
  unfold split_narration.
  rewrite content_filter_nonblank, content_finish, content_scan.
  reflexivity.
Qed.

(** C5: for every text and every max_len (so in particular max_len >= 1),
    the concatenation of the segments of split_narration has the same
    non-whitespace characters, in the same order, as the text: trimming and
    dropped whitespace-only chunks remove whitespace only, and every
    character of a segment that is not in this list is whitespace. *)
Theorem split_narration_reconstruction (text : pystr) (max_len : Z) :
  filter (fun c => negb (isspace c)) (concat (split_narration text max_len))
  = filter (fun c => negb (isspace c)) text.
Proof. exact (content_split_narration text max_len). Qed.

(** ** Invariants of the loop *)

Lemma scan_invariant_on (Q : codepoint -> Prop) (P : scan_state -> Prop)
      max_len :
  (forall st ch, Q ch -> P st -> P (scan_step max_len st ch)) ->
  forall text st, Forall Q text -> P st -> P (scan max_len st text).
Proof.
  intros Hstep text. induction text as [|ch text IH]; intros st HQ H.
  - exact H.
  - rewrite scan_cons. inversion HQ; subst. apply IH; auto.
Qed.

Lemma nonblank_strip s :
  truthy (strip s) = true -> truthy (strip (strip s)) = true.
Proof.
  intros H. rewrite truthy_strip, content_strip, <- truthy_strip. exact H.
Qed.

Lemma nonblank_app_r a b :
  truthy (strip b) = true -> truthy (strip (a ++ b)) = true.
Proof.
  rewrite !truthy_strip, content_app.
  destruct (content b); [discriminate|]. intros _.
  destruct (content a); reflexivity.
Qed.

Lemma len_nonneg s : (0 <= len s)%Z.
Proof. unfold len. lia. Qed.

Lemma len_pos s : s <> [] -> (1 <= len s)%Z.
Proof. destruct s; [congruence|]. unfold len. simpl length. lia. Qed.

Lemma len_app_one s ch : len (s ++ [ch]) = (len s + 1)%Z.
Proof. unfold len. rewrite length_app. simpl. lia. Qed.

Lemma close_buffer_Forall (P : pystr -> Prop) segs cur :
  Forall P segs -> (truthy (strip cur) = true -> P (strip cur)) ->
  Forall P (segments (close_buffer segs cur)).
Proof.
  intros Hs Hc. unfold close_buffer. simpl.
  destruct (truthy (strip cur)); [|exact Hs].
  apply Forall_app. split; [exact Hs|]. constructor; auto.
Qed.

Lemma scan_wf_step max_len st ch :
  scan_wf st -> scan_wf (scan_step max_len st ch).
Proof.
  intros [Hl Hs].
  destruct (scan_step_cases max_len st ch) as [[-> _]|[-> _]]; split.
  - reflexivity.
  - apply close_buffer_Forall; [exact Hs|apply nonblank_strip].
  - simpl. rewrite len_app_one. now rewrite Hl.
  - exact Hs.
Qed.

Lemma scan_wf_init : scan_wf scan_init.
Proof. split; [reflexivity|constructor]. Qed.

Lemma scan_wf_scan max_len text : scan_wf (scan max_len scan_init text).
Proof.
  apply scan_invariant; [apply scan_wf_step|apply scan_wf_init].
Qed.

(** The three outcomes of the end-of-input code. *)
Lemma finish_cases st :
  let remaining := strip (current st) in
  (finish st = segments st /\ truthy remaining = false /\ merges st = false)
  \/ (finish st = segments st ++ [remaining] /\ truthy remaining = true
      /\ (segments st = [] \/ (5 <= len remaining)%Z) /\ merges st = false)
  \/ (finish st = append_to_last (segments st) remaining
      /\ truthy remaining = true /\ segments st <> []
      /\ (len remaining < 5)%Z /\ merges st = true).
Proof.
  unfold finish, merges. simpl.
  destruct (current st) as [|c cur]; [left; auto|].
  simpl truthy at 1 4. cbv iota. rewrite andb_true_l.
  destruct (truthy (strip (c :: cur))) eqn:Es; [|left; auto].
  rewrite andb_true_l.
  destruct (truthy (segments st)) eqn:Eg; simpl.
  - destruct (Z.ltb_spec (len (strip (c :: cur))) 5).
    + right; right. repeat split; auto. now apply truthy_cons.
    + right; left. auto.
  - right; left. apply truthy_nil in Eg. auto.
Qed.

Lemma filter_true_id {A} (f : A -> bool) l :
  Forall (fun x => f x = true) l -> filter f l = l.
Proof.
  induction 1 as [|x l Hx _ IH]; simpl; [reflexivity|].
  now rewrite Hx, IH.
Qed.

Lemma Forall_removelast {A} (P : A -> Prop) l :
  Forall P l -> Forall P (removelast l).
Proof.
  induction 1 as [|x l Hx Hl IH]; simpl; [constructor|].
  destruct l; [constructor|]. constructor; assumption.
Qed.

Lemma finish_nonblank st :
  Forall (fun s => truthy (strip s) = true) (segments st) ->
  Forall (fun s => truthy (strip s) = true) (finish st).
Proof.
  intros H.
  destruct (finish_cases st) as [(-> & _)|[(-> & Hr & _)|(-> & Hr & Hne & _)]].
  - exact H.
  - apply Forall_app. split; [exact H|].
    constructor; [now apply nonblank_strip|constructor].
  - unfold append_to_last. apply Forall_app. split.
    + now apply Forall_removelast.
    + constructor; [|constructor]. now apply nonblank_app_r, nonblank_strip.
Qed.

(** The list comprehension of the [return] drops nothing. *)
Lemma split_narration_finish text max_len :
  split_narration text max_len = finish (scan max_len scan_init text).
Proof.
  unfold split_narration. apply filter_true_id, finish_nonblank.
  apply (scan_wf_scan max_len text).
Qed.

(** ** Segment lengths *)

Lemma scan_bounded_step max_len st ch :
  scan_bounded max_len st -> scan_bounded max_len (scan_step max_len st ch).
Proof.
  intros (Hl & Hb & Hs).
  destruct (scan_step_cases max_len st ch) as [[-> _]|[-> (Hn & _)]].
  - split; [reflexivity|]. split; [simpl; unfold len in Hl; lia|].
    apply close_buffer_Forall; [exact Hs|]. intros _.
    pose proof (len_strip (current st ++ [ch])) as H.
    rewrite len_app_one in H. lia.
  - split; [simpl; rewrite len_app_one; lia|]. split; [exact Hn|exact Hs].
Qed.

Lemma scan_bounded_scan max_len text :
  (1 <= max_len)%Z -> scan_bounded max_len (scan max_len scan_init text).
Proof.
  intros H. apply scan_invariant; [apply scan_bounded_step|].
  split; [reflexivity|]. split; [simpl; lia|constructor].
Qed.

(** When the buffer reaches [max_len] it is closed, delimiter or not. *)
Lemma scan_step_full max_len st ch :
  (max_len <= current_len st + 1)%Z ->
  scan_step max_len st ch = close_buffer (segments st) (current st ++ [ch]).
Proof.
  intros H. destruct (scan_step_cases max_len st ch) as [[E _]|[_ (Hn & _)]].
  - exact E.
  - lia.
Qed.

Lemma removelast_append_to_last segs remaining :
  removelast (append_to_last segs remaining) = removelast segs.
Proof. unfold append_to_last. apply removelast_last. Qed.

(** All segments but the last of the result are segments closed by the
    loop. *)
Lemma removelast_finish (P : pystr -> Prop) st :
  Forall P (segments st) -> Forall P (removelast (finish st)).
Proof.
  intros H.
  destruct (finish_cases st) as [(-> & _)|[(-> & _)|(-> & _)]].
  - now apply Forall_removelast.
  - now rewrite removelast_last.
  - rewrite removelast_append_to_last. now apply Forall_removelast.
Qed.


Lemma forallb_Forall {A} (f : A -> bool) l :
  forallb f l = true -> Forall (fun x => f x = true) l.
Proof. intros H. apply Forall_forall. now apply forallb_forall. Qed.



(** ** End of input *)

(** A text that fits in the buffer below both thresholds is only
    accumulated. *)
Lemma scan_short max_len text st :
  current_len st = len (current st) ->
  (len (current st) + len text < 5)%Z ->
  (len (current st) + len text < max_len)%Z ->
  scan max_len st text
  = {| segments := segments st; current := current st ++ text;
       current_len := (current_len st + len text)%Z |}.
Proof.
  revert st. induction text as [|ch text IH]; intros st Hl H5 Hm.
  - rewrite scan_nil, app_nil_r. change (len []) with 0%Z.
    rewrite Z.add_0_r. now destruct st.
  - assert (Hc : len (ch :: text) = (1 + len text)%Z)
      by (unfold len; simpl length; lia).
    assert (0 <= len text)%Z by (unfold len; lia).
    rewrite Hc in *. rewrite scan_cons.
    destruct (scan_step_cases max_len st ch) as [[_ Hx]|[-> _]].
    + destruct Hx as [[_ Hx]|Hx]; lia.
    + rewrite IH; cbn [segments current current_len];
        rewrite ?len_app_one; try lia.
      rewrite <- app_assoc. cbn [app]. f_equal. lia.
Qed.

(** C4 (as amended): at the end of the input, with [remaining] the trimmed
    buffer: when it is non-empty, there is a prior segment and it has fewer
    than 5 characters, it is appended to the last segment; when it is
    non-empty and there is no prior segment or it has 5 characters or more,
    it becomes the final segment; when it is empty nothing is added.  A
    narration with a non-whitespace character that is shorter than 5
    characters and shorter than max_len is returned as one segment, its
    trimmed text. *)
Theorem split_narration_end_of_input (text : pystr) (max_len : Z) :
  let st := scan max_len scan_init text in
  let remaining := strip (current st) in
  (truthy remaining = true -> segments st <> [] -> (len remaining < 5)%Z ->
   split_narration text max_len
   = removelast (segments st) ++ [last (segments st) [] ++ remaining])
  /\ (truthy remaining = true ->
      segments st = [] \/ (5 <= len remaining)%Z ->
      split_narration text max_len = segments st ++ [remaining])
  /\ (truthy remaining = false -> split_narration text max_len = segments st)
  /\ ((len text < 5)%Z -> (len text < max_len)%Z ->
      truthy (strip text) = true ->
      split_narration text max_len = [strip text]).
Proof.
  intros st remaining. rewrite split_narration_finish. fold st.
  pose proof (finish_cases st) as Hf. cbv zeta in Hf. fold remaining in Hf.
  split; [|split; [|split]].
  - intros Hr Hs Hl.
    destruct Hf as [(_ & Hr' & _)|[(_ & _ & [Hs'|Hl'] & _)|(-> & _)]];
      try congruence; try lia. reflexivity.
  - intros Hr Hc.
    destruct Hf as [(_ & Hr' & _)|[(-> & _)|(_ & _ & Hs' & Hl' & _)]];
      try congruence. destruct Hc; [contradiction|lia].
  - intros Hr.
    destruct Hf as [(-> & _)|[(_ & Hr' & _)|(_ & Hr' & _)]]; congruence.
  - intros H5 Hm Ht. subst remaining st.
    assert (E : scan max_len scan_init text
                = {| segments := []; current := text;
                     current_len := (0 + len text)%Z |}).
    { apply (@scan_short max_len text scan_init); [reflexivity| |];
        change (len (current scan_init)) with 0%Z; lia. }
    rewrite E in *. cbn [segments current] in *.
    destruct Hf as [(_ & Hr' & _)|[(-> & _)|(_ & _ & Hs' & _)]];
      try congruence. reflexivity.
Qed.

Lemma split_narration_end_of_input_witness :
  split_narration (py "Hello you. Hi") 20 = [py "Hello you.Hi"]
  /\ split_narration (py "Hello you. Hello") 20
     = [py "Hello you."; py "Hello"]
  /\ split_narration (py "Hello you.  ") 20 = [py "Hello you."]
  /\ split_narration (py " Hi ") 20 = [py "Hi"].
Proof.
  split; [|split; [|split]].
  - pose proof (split_narration_end_of_input (py "Hello you. Hi") 20) as H.
    cbv zeta in H. destruct H as (H & _).
    rewrite H; [| |vm_compute; discriminate|];
      vm_compute; reflexivity.
  - pose proof (split_narration_end_of_input (py "Hello you. Hello") 20) as H.
    cbv zeta in H. destruct H as (_ & H & _).
    rewrite H; [| |right; vm_compute; discriminate];
      vm_compute; reflexivity.
  - pose proof (split_narration_end_of_input (py "Hello you.  ") 20) as H.
    cbv zeta in H. destruct H as (_ & _ & H & _).
    rewrite H; vm_compute; reflexivity.
  - pose proof (split_narration_end_of_input (py " Hi ") 20) as H.
    cbv zeta in H. destruct H as (_ & _ & _ & H).
    rewrite H; vm_compute; reflexivity.
Defined.

(** C4, as stated, fails: with max_len below 5 a narration shorter than 5
    characters is cut at every max_len characters although it has no
    delimiter at all. *)
Lemma short_narration_not_single :
  split_narration (py "abc") 1 = [py "a"; py "b"; py "c"]
  /\ ~ (forall text max_len,
          (1 <= max_len)%Z -> (len text < 5)%Z ->
          forallb (fun c => negb (is_delimiter c)) text = true ->
          truthy (strip text) = true ->
          exists seg, split_narration text max_len = [seg]).
Proof.
  split; [vm_compute; reflexivity|]. intros H.
  destruct (H (py "abc") 1%Z) as [seg Hseg];
    [lia|vm_compute; reflexivity..|].
  vm_compute in Hseg. discriminate Hseg.
Qed.

(** C10: when the trailing fragment is merged, the trimmed fragment is
    appended to the previous segment with nothing in between, so the
    whitespace that separated them in the narration is lost:
    split_narration("Hello you. Hi", 20) is ["Hello you.Hi"], although the
    buffer at the end of the input is " Hi". *)
Theorem merge_drops_separator :
  (forall text max_len segs prev,
      let st := scan max_len scan_init text in
      segments st = segs ++ [prev] ->
      truthy (strip (current st)) = true ->
      (len (strip (current st)) < 5)%Z ->
      split_narration text max_len = segs ++ [prev ++ strip (current st)])
  /\ scan 20 scan_init (py "Hello you. Hi")
     = {| segments := [py "Hello you."]; current := py " Hi";
          current_len := 3 |}
  /\ split_narration (py "Hello you. Hi") 20 = [py "Hello you.Hi"]
  /\ split_narration (py "Hello you. Hi") 20 <> [py "Hello you. Hi"].
Proof.
  split; [|split; [vm_compute; reflexivity|
                  split; [vm_compute; reflexivity|vm_compute; discriminate]]].
  intros text max_len segs prev st Hs Hr Hl.
  rewrite split_narration_finish. fold st.
  destruct (finish_cases st)
    as [(_ & Hr' & _)|[(_ & _ & [Hs'|Hl'] & _)|(-> & _)]];
    try congruence; try lia.
  - rewrite Hs' in Hs. now destruct segs.
  - unfold append_to_last. rewrite Hs, removelast_last, last_last.
    reflexivity.
Qed.

Lemma merge_drops_separator_witness :
  split_narration (py "Wait, what? No") 20 = [py "Wait,"; py "what?No"].
Proof.
  destruct merge_drops_separator as (H & _).
  specialize (H (py "Wait, what? No") 20%Z [py "Wait,"] (py "what?")).
  cbv zeta in H. rewrite H; vm_compute; reflexivity.
Defined.

(** ** The cues and the lines *)

Section TimelineFacts.
Context {F : Type} {num : PyFloat F}.

Lemma fold_bind_None {A B} (f : A -> B -> option A) l :
  fold_left (fun o b => a <- o ;; f a b) l None = None.
Proof. induction l; simpl; auto. Qed.

Lemma advance_nil (st : gen_state F) : advance st [] (clock_of st) = st.
Proof. destruct st. unfold advance, clock_of. simpl. now rewrite app_nil_r. Qed.

Lemma render_cues_app (a b : list (cue F)) :
  render_cues (a ++ b)
  = (la <- render_cues a ;; lb <- render_cues b ;; Some (la ++ lb)).
Proof.
  induction a as [|c a IH]; simpl.
  - destruct (render_cues b); reflexivity.
  - destruct (render_cue c) as [l|]; simpl; [|reflexivity].
    rewrite IH. destruct (render_cues a) as [la|]; simpl; [|reflexivity].
    destruct (render_cues b) as [lb|]; simpl; [|reflexivity].
    now rewrite app_assoc.
Qed.

Lemma segment_cues_cons duration total (ck : clock F) seg segs :
  segment_cues duration total ck (seg :: segs)
  = let d := seg_duration duration total seg in
    let r := segment_cues duration total
                          ((fst ck + 1)%Z, fadd (snd ck) d) segs in
    ({| cue_index := fst ck; cue_start := snd ck;
        cue_end := fadd (snd ck) d; cue_text := seg |} :: fst r, snd r).
Proof.
  simpl. destruct (segment_cues duration total _ segs). reflexivity.
Qed.

Lemma timeline_cons (ck : clock F) sc scs :
  timeline ck (sc :: scs)
  = let r := scene_cues ck sc in
    let r' := timeline (snd r) scs in
    (fst r ++ fst r', snd r').
Proof.
  simpl. destruct (scene_cues ck sc) as [cs ck'].
  simpl. destruct (timeline ck' scs). reflexivity.
Qed.

(** The inner loop appends the rendering of [segment_cues]. *)
Lemma emit_segments_cues duration total segs st :
  emit_segments duration total st segs
  = rendered st (segment_cues duration total (clock_of st) segs).
Proof.
  unfold emit_segments, rendered. revert st.
  induction segs as [|seg segs IH]; intros st.
  - simpl. now rewrite advance_nil.
  - rewrite segment_cues_cons. cbv zeta. cbn [fst snd clock_of fold_left bind].
    cbn [render_cues]. unfold render_cue, emit_segment.
    cbn [cue_start cue_end cue_index cue_text].
    destruct (format_srt_time (cum_time st)) as [t1|]; cbn [bind];
      [|apply fold_bind_None].
    destruct (format_srt_time
                (fadd (cum_time st) (seg_duration duration total seg)))
      as [t2|]; cbn [bind]; [|apply fold_bind_None].
    rewrite IH. cbn [clock_of subtitle_index cum_time].
    destruct (render_cues _) as [ls|]; cbn [bind]; [|reflexivity].
    unfold advance. cbn [lines]. now rewrite <- app_assoc.
Qed.

Lemma process_scene_cues st (sc : scene F) :
  process_scene st sc = rendered st (scene_cues (clock_of st) sc).
Proof.
  unfold process_scene, scene_cues.
  destruct (negb (truthy (strip (get (narration sc) [])))).
  - unfold rendered, advance. simpl. now rewrite app_nil_r.
  - apply emit_segments_cues.
Qed.

Lemma process_scenes_cues (scs : list (scene F)) st :
  process_scenes st scs = rendered st (timeline (clock_of st) scs).
Proof.
  unfold process_scenes. revert st.
  induction scs as [|sc scs IH]; intros st.
  - unfold rendered. simpl. now rewrite advance_nil.
  - rewrite timeline_cons. cbv zeta. cbn [fold_left bind].
    rewrite process_scene_cues. unfold rendered at 1 2. cbn [fst snd].
    rewrite render_cues_app.
    destruct (render_cues (fst (scene_cues (clock_of st) sc))) as [ls|];
      cbn [bind]; [|apply fold_bind_None].
    rewrite IH. unfold rendered.
    replace (clock_of (advance st ls (snd (scene_cues (clock_of st) sc))))
      with (snd (scene_cues (clock_of st) sc))
      by (unfold clock_of, advance; cbn [subtitle_index cum_time];
          apply surjective_pairing).
    destruct (render_cues _) as [ls'|]; cbn [bind]; [|reflexivity].
    unfold advance. cbn [lines subtitle_index cum_time].
    now rewrite app_assoc.
Qed.

(** generate_srt joins the rendering of the cues of [timeline], started
    with index 1 at time 0. *)
Lemma generate_srt_cues (data : video_data F) :
  generate_srt data
  = (ls <- render_cues (fst (timeline (1%Z, of_int 0) (get (scenes data) []))) ;;
     Some (join newline ls)).
Proof.
  unfold generate_srt. rewrite process_scenes_cues. unfold rendered.
  change (clock_of gen_init) with (1%Z, of_int 0).
  destruct (render_cues _); reflexivity.
Qed.

End TimelineFacts.

(** ** Indices and contiguity, for any float arithmetic *)

Section Structure.
Context {F : Type} {num : PyFloat F}.

Lemma contiguous_nth (cs : list (cue F)) : forall t k c1 c2,
  contiguous t cs ->
  nth_error cs k = Some c1 -> nth_error cs (S k) = Some c2 ->
  cue_end c1 = cue_start c2.
Proof.
  induction cs as [|c cs IH]; intros t k c1 c2 H H1 H2.
  - destruct k; discriminate.
  - destruct H as [_ H]. destruct k as [|k].
    + simpl in H1. injection H1 as <-. destruct cs as [|c' cs]; [discriminate|].
      simpl in H2. injection H2 as <-. destruct H as [H _]. now rewrite H.
    + simpl in H1. eapply IH; eauto.
Qed.

Lemma indexed_nth (cs : list (cue F)) : forall i k c,
  indexed i cs -> nth_error cs k = Some c -> cue_index c = (i + Z.of_nat k)%Z.
Proof.
  induction cs as [|c0 cs IH]; intros i k c H Hk.
  - destruct k; discriminate.
  - destruct H as [H0 H]. destruct k as [|k].
    + simpl in Hk. injection Hk as <-. simpl. lia.
    + simpl in Hk. rewrite (IH _ _ _ H Hk). lia.
Qed.

Lemma indexed_app (a b : list (cue F)) : forall i,
  indexed i a -> indexed (i + Z.of_nat (length a)) b -> indexed i (a ++ b).
Proof.
  induction a as [|c a IH]; intros i Ha Hb.
  - simpl in *. now rewrite Z.add_0_r in Hb.
  - destruct Ha as [H0 Ha]. split; [exact H0|]. apply IH; [exact Ha|].
    simpl length in Hb. now replace (i + 1 + Z.of_nat (length a))%Z
      with (i + Z.of_nat (S (length a)))%Z by lia.
Qed.

Lemma segment_cues_structure duration total segs : forall ck : clock F,
  let r := segment_cues duration total ck segs in
  contiguous (snd ck) (fst r) /\ indexed (fst ck) (fst r)
  /\ fst (snd r) = (fst ck + Z.of_nat (length (fst r)))%Z
  /\ map (@cue_text F) (fst r) = segs.
Proof.
  induction segs as [|seg segs IH]; intros ck.
  - simpl. repeat split. lia.
  - rewrite segment_cues_cons. cbv zeta. cbn [fst snd].
    specialize (IH ((fst ck + 1)%Z,
                    fadd (snd ck) (seg_duration duration total seg))).
    cbv zeta in IH. cbn [fst snd] in IH.
    destruct IH as (Hc & Hi & Hn & Ht).
    split; [|split; [|split]].
    + split; [reflexivity|exact Hc].
    + split; [reflexivity|exact Hi].
    + rewrite Hn. simpl length. lia.
    + simpl. now rewrite Ht.
Qed.

Lemma scene_cues_blank (ck : clock F) sc :
  blank sc = true ->
  scene_cues ck sc = ([], (fst ck, fadd (snd ck) (duration_of sc))).
Proof.
  unfold blank, narration_of, scene_cues. intros ->. reflexivity.
Qed.

Lemma scene_cues_nonblank (ck : clock F) sc :
  blank sc = false ->
  scene_cues ck sc
  = let segs := split_narration (narration_of sc) 20 in
    segment_cues (duration_of sc) (total_len segs) ck segs.
Proof.
  unfold blank, narration_of, scene_cues. intros ->. reflexivity.
Qed.

Lemma scene_cues_structure (ck : clock F) sc :
  let r := scene_cues ck sc in
  contiguous (snd ck) (fst r) /\ indexed (fst ck) (fst r)
  /\ fst (snd r) = (fst ck + Z.of_nat (length (fst r)))%Z.
Proof.
  destruct (blank sc) eqn:E.
  - rewrite (scene_cues_blank _ _ E). simpl. repeat split. lia.
  - rewrite (scene_cues_nonblank _ _ E). cbv zeta.
    destruct (segment_cues_structure (duration_of sc)
                (total_len (split_narration (narration_of sc) 20))
                (split_narration (narration_of sc) 20) ck)
      as (H1 & H2 & H3 & _). auto.
Qed.

Lemma timeline_indexed (scs : list (scene F)) : forall ck : clock F,
  let r := timeline ck scs in
  indexed (fst ck) (fst r)
  /\ fst (snd r) = (fst ck + Z.of_nat (length (fst r)))%Z.
Proof.
  induction scs as [|sc scs IH]; intros ck.
  - simpl. split; [exact I|lia].
  - rewrite timeline_cons. cbv zeta. cbn [fst snd].
    destruct (scene_cues_structure ck sc) as (_ & Hi & Hn).
    destruct (IH (snd (scene_cues ck sc))) as [Hi' Hn'].
    split.
    + apply indexed_app; [exact Hi|]. now rewrite <- Hn.
    + rewrite Hn', Hn, length_app. lia.
Qed.

Lemma timeline_app (a b : list (scene F)) : forall ck : clock F,
  timeline ck (a ++ b)
  = let r := timeline ck a in
    let r' := timeline (snd r) b in
    (fst r ++ fst r', snd r').
Proof.
  induction a as [|sc a IH]; intros ck.
  - simpl. now destruct (timeline ck b).
  - simpl app. rewrite !timeline_cons. cbv zeta. rewrite IH. cbv zeta.
    cbn [fst snd]. now rewrite app_assoc.
Qed.

(** A whitespace-only scene between [a] and [b]: the cues of [b] are
    computed with the clock left by [a] advanced by the whole duration of
    the scene, and with the index left by [a]. *)
Lemma timeline_blank_between (a b : list (scene F)) sc (ck : clock F) :
  blank sc = true ->
  timeline ck (a ++ sc :: b)
  = let r := timeline ck a in
    let r' := timeline (fst (snd r), fadd (snd (snd r)) (duration_of sc)) b in
    (fst r ++ fst r', snd r').
Proof.
  intros Hb. rewrite timeline_app. cbv zeta. rewrite timeline_cons. cbv zeta.
  rewrite (scene_cues_blank _ _ Hb). reflexivity.
Qed.

End Structure.

(** ** Exact arithmetic *)

Lemma total_len_shift segs : forall a,
  fold_left (fun acc s => (acc + len s)%Z) segs a
  = (a + total_len segs)%Z.
Proof.
  unfold total_len. induction segs as [|s segs IH]; intros a; simpl.
  - lia.
  - rewrite IH, (IH (len s)). lia.
Qed.

Lemma total_len_cons s segs : total_len (s :: segs) = (len s + total_len segs)%Z.
Proof. unfold total_len at 1. simpl. apply total_len_shift. Qed.

Lemma total_len_concat segs : total_len segs = len (concat segs).
Proof.
  induction segs as [|s segs IH]; [reflexivity|].
  rewrite total_len_cons, IH. unfold len. simpl. rewrite length_app. lia.
Qed.

(** A narration with a non-whitespace character gives at least one
    character of segments. *)
Lemma total_len_pos text max_len :
  truthy (strip text) = true ->
  (1 <= total_len (split_narration text max_len))%Z.
Proof.
  intros H. rewrite total_len_concat. apply len_pos. intros E.
  pose proof (content_split_narration text max_len) as R.
  rewrite E in R. rewrite truthy_strip, <- R in H. discriminate.
Qed.

Lemma split_narration_nonblank text max_len :
  Forall (fun s => truthy (strip s) = true) (split_narration text max_len).
Proof.
  rewrite split_narration_finish. apply finish_nonblank.
  apply (scan_wf_scan max_len text).
Qed.

Lemma nonblank_nonempty s : truthy (strip s) = true -> s <> [].
Proof. intros H ->. discriminate. Qed.

Lemma seg_duration_Q (d : Q) total seg :
  seg_duration d total seg
  = (d * (inject_Z (len seg) / inject_Z (Z.max total 1)))%Q.
Proof. reflexivity. Qed.

Lemma inject_Z_max_pos total : (0 < inject_Z (Z.max total 1))%Q.
Proof.
  change 0%Q with (inject_Z 0). rewrite <- Zlt_Qlt. lia.
Qed.

Lemma ratio_nonneg total seg :
  (0 <= inject_Z (len seg) / inject_Z (Z.max total 1))%Q.
Proof.
  apply Qle_shift_div_l; [apply inject_Z_max_pos|].
  rewrite Qmult_0_l. change 0%Q with (inject_Z 0). rewrite <- Zle_Qle.
  apply len_nonneg.
Qed.

Lemma ratio_pos total seg :
  seg <> [] -> (0 < inject_Z (len seg) / inject_Z (Z.max total 1))%Q.
Proof.
  intros H. apply Qlt_shift_div_l; [apply inject_Z_max_pos|].
  rewrite Qmult_0_l. change 0%Q with (inject_Z 0). rewrite <- Zlt_Qlt.
  pose proof (len_pos H). lia.
Qed.






(** In exact arithmetic nothing raises. *)
Lemma format_srt_time_total (s : Q) : exists ts, format_srt_time s = Some ts.
Proof. unfold format_srt_time. simpl. eauto. Qed.

Lemma render_cues_total (cs : list (cue Q)) :
  exists ls, render_cues cs = Some ls.
Proof.
  induction cs as [|c cs [ls IH]]; [now exists []|].
  cbn [render_cues]. unfold render_cue.
  destruct (format_srt_time_total (cue_start c)) as [t1 ->].
  destruct (format_srt_time_total (cue_end c)) as [t2 ->].
  cbn [bind]. rewrite IH. cbn [bind]. eauto.
Qed.




(** ** Order of the cues *)

Lemma segment_cues_span {F : Type} {num : PyFloat F} duration total segs :
  forall ck : clock F,
    Forall (fun c => cue_end c
                     = fadd (cue_start c)
                            (seg_duration duration total (cue_text c))
                     /\ In (cue_text c) segs)
           (fst (segment_cues duration total ck segs)).
Proof.
  induction segs as [|seg segs IH]; intros ck; [constructor|].
  rewrite segment_cues_cons. cbv zeta. cbn [fst]. constructor.
  - cbn [cue_end cue_start cue_text]. split; [reflexivity|now left].
  - eapply Forall_impl; [|apply IH]. intros c [H1 H2].
    split; [exact H1|now right].
Qed.

Lemma seg_duration_sign (d : Q) total seg :
  seg <> [] ->
  ((0 <= d -> 0 <= seg_duration d total seg)
   /\ (d == 0 -> seg_duration d total seg == 0)
   /\ (d < 0 -> seg_duration d total seg < 0))%Q.
Proof.
  intros Hne. rewrite seg_duration_Q.
  pose proof (ratio_pos total Hne) as Hr.
  set (r := (inject_Z (len seg) / inject_Z (Z.max total 1))%Q) in *.
  split; [|split]; intros Hd.
  - apply Qmult_le_0_compat; [exact Hd|now apply Qlt_le_weak].
  - rewrite Hd. ring.
  - setoid_replace 0%Q with (0 * r)%Q by ring.
    now apply Qmult_lt_compat_r.
Qed.

(** The cues of one scene, by the sign of its duration. *)
Lemma scene_cues_sign (ck : clock Q) (sc : scene Q) :
  ((0 <= duration_of sc ->
    Forall (fun c => cue_start c <= cue_end c) (fst (scene_cues ck sc)))
   /\ (duration_of sc == 0 ->
       Forall (fun c => cue_end c == cue_start c) (fst (scene_cues ck sc)))
   /\ (duration_of sc < 0 ->
       Forall (fun c => cue_end c < cue_start c) (fst (scene_cues ck sc))))%Q.
Proof.
  destruct (blank sc) eqn:E.
  - rewrite (scene_cues_blank _ _ E). cbn [fst]. repeat split; constructor.
  - rewrite (scene_cues_nonblank _ _ E). cbv zeta.
    set (segs := split_narration (narration_of sc) 20).
    pose proof (segment_cues_span (duration_of sc) (total_len segs) segs ck)
      as Hs.
    pose proof (split_narration_nonblank (narration_of sc) 20) as Hn.
    fold segs in Hn. rewrite Forall_forall in Hn.
    split; [|split]; intros Hd; eapply Forall_impl; try apply Hs;
      intros c [-> Hin];
      destruct (@seg_duration_sign (duration_of sc) (total_len segs)
                  (cue_text c) (nonblank_nonempty (Hn _ Hin)))
        as (H1 & H2 & H3); cbn [fadd Q_float].
    + specialize (H1 Hd). lra.
    + specialize (H2 Hd). lra.
    + specialize (H3 Hd). lra.
Qed.

Lemma ordered_bounds (cs : list (cue Q)) : forall lo hi,
  ordered lo cs hi ->
  (lo <= hi)%Q /\ Forall (fun c => (lo <= cue_start c)%Q) cs.
Proof.
  induction cs as [|c cs IH]; intros lo hi H.
  - split; [exact H|constructor].
  - destruct H as (H1 & H2 & H3). destruct (IH _ _ H3) as [H4 H5].
    split; [lra|]. constructor; [exact H1|].
    eapply Forall_impl; [|exact H5]. cbv beta. intros. lra.
Qed.

Lemma ordered_app (a b : list (cue Q)) : forall lo mid hi,
  ordered lo a mid -> ordered mid b hi -> ordered lo (a ++ b) hi.
Proof.
  induction a as [|c a IH]; intros lo mid hi Ha Hb.
  - simpl in *. destruct b as [|c b]; simpl in *; [lra|].
    destruct Hb as (H1 & H2 & H3). repeat split; auto. lra.
  - destruct Ha as (H1 & H2 & H3). simpl. repeat split; auto.
    eapply IH; eauto.
Qed.

Lemma ordered_nth (cs : list (cue Q)) : forall lo hi j k c1 c2,
  ordered lo cs hi -> (j < k)%nat ->
  nth_error cs j = Some c1 -> nth_error cs k = Some c2 ->
  (cue_start c1 <= cue_end c1 /\ cue_end c1 <= cue_start c2)%Q.
Proof.
  induction cs as [|c cs IH]; intros lo hi j k c1 c2 H Hjk H1 H2.
  - destruct j; discriminate.
  - destruct H as (Ha & Hb & Hc). destruct k as [|k]; [lia|].
    simpl in H2. destruct j as [|j].
    + simpl in H1. injection H1 as <-. split; [exact Hb|].
      destruct (ordered_bounds _ _ _ Hc) as [_ Hf].
      rewrite Forall_forall in Hf. apply Hf.
      eapply nth_error_In; eauto.
    + simpl in H1. apply (IH _ _ j k c1 c2 Hc); [lia|exact H1|exact H2].
Qed.

Lemma segment_cues_ordered (d : Q) total segs :
  (0 <= d)%Q -> forall ck : clock Q,
  let r := segment_cues d total ck segs in
  ordered (snd ck) (fst r) (snd (snd r)).
Proof.
  intros Hd. induction segs as [|seg segs IH]; intros ck.
  - simpl. lra.
  - rewrite segment_cues_cons. cbv zeta. cbn [fst snd ordered cue_start cue_end].
    assert (0 <= seg_duration d total seg)%Q as Hs.
    { rewrite seg_duration_Q.
      apply Qmult_le_0_compat; [exact Hd|apply ratio_nonneg]. }
    split; [lra|]. split; [cbn [fadd Q_float]; lra|].
    exact (IH ((fst ck + 1)%Z, fadd (snd ck) (seg_duration d total seg))).
Qed.

Lemma timeline_ordered (scs : list (scene Q)) :
  Forall (fun sc => (0 <= duration_of sc)%Q) scs ->
  forall ck : clock Q,
    let r := timeline ck scs in
    ordered (snd ck) (fst r) (snd (snd r)).
Proof.
  induction 1 as [|sc scs Hd _ IH]; intros ck.
  - simpl. lra.
  - rewrite timeline_cons. cbv zeta. cbn [fst snd].
    eapply ordered_app; [|exact (IH (snd (scene_cues ck sc)))].
    destruct (blank sc) eqn:E.
    + rewrite (scene_cues_blank _ _ E). cbn [fst snd ordered fadd Q_float].
      lra.
    + rewrite (scene_cues_nonblank _ _ E). cbv zeta.
      now apply segment_cues_ordered.
Qed.

Lemma ordered_Forall (cs : list (cue Q)) : forall lo hi,
  ordered lo cs hi -> Forall (fun c => (cue_start c <= cue_end c)%Q) cs.
Proof.
  induction cs as [|c cs IH]; intros lo hi H; [constructor|].
  destruct H as (_ & H1 & H2). constructor; [exact H1|eapply IH; eauto].
Qed.

Lemma generate_srt_total (data : video_data Q) :
  exists out, generate_srt data = Some out.
Proof.
  rewrite generate_srt_cues.
  destruct (render_cues_total
              (fst (timeline (1%Z, of_int 0) (get (scenes data) []))))
    as [ls ->].
  cbn [bind]. eauto.
Qed.

(** ** Timestamps *)










#[local] Set Warnings "-inexact-float".


(** ** The scenario of the specification *)

(** C3: for the narration "你好，世界！今天天气很好。" and max_len 20 the loop
    does not cut at the comma (3 characters buffered), cuts at "！" with 6
    characters buffered and at the final "。", and split_narration returns
    these two segments, of 6 and 7 characters.  With durationSeconds 10.0
    generate_srt writes one cue for each; their durations are
    10 * (6 / 13) and 10 * (7 / 13): in exact arithmetic they are in the
    ratio 6 : 7 and add up to 10, and on binary64 floats the clock after the
    second cue is exactly 10.0. *)
Theorem scenario_ni_hao :
  scan 20 scan_init (py "你好，")
  = {| segments := []; current := py "你好，"; current_len := 3 |}
  /\ scan 20 scan_init (py "你好，世界")
     = {| segments := []; current := py "你好，世界"; current_len := 5 |}
  /\ scan 20 scan_init (py "你好，世界！")
     = {| segments := [ni_hao_1]; current := []; current_len := 0 |}
  /\ split_narration ni_hao 20 = [ni_hao_1; ni_hao_2]
  /\ len ni_hao_1 = 6%Z /\ len ni_hao_2 = 7%Z
  /\ timeline (1%Z, 0%float) [Scene (Some ni_hao) (Some 10%float)]
     = ([Cue 1%Z 0%float (0 + 10 * (6 / 13))%float ni_hao_1;
         Cue 2%Z (0 + 10 * (6 / 13))%float 10%float ni_hao_2],
        (3%Z, 10%float))
  /\ generate_srt (doc [(ni_hao, 10%float)])
     = Some (join newline
               [py "1"; py "00:00:00,000 --> 00:00:04,615"; ni_hao_1; py "";
                py "2"; py "00:00:04,615 --> 00:00:10,000"; ni_hao_2; py ""])
  /\ (seg_duration 10 13 ni_hao_1 == 60 # 13)%Q
  /\ (seg_duration 10 13 ni_hao_2 == 70 # 13)%Q
  /\ (seg_duration 10 13 ni_hao_1 * inject_Z (len ni_hao_2)
      == seg_duration 10 13 ni_hao_2 * inject_Z (len ni_hao_1))%Q
  /\ (seg_duration 10 13 ni_hao_1 + seg_duration 10 13 ni_hao_2 == 10)%Q
  /\ total_len (split_narration ni_hao 20) = 13%Z.
Proof.
  repeat split; vm_compute; reflexivity.
Qed.

(** ** The text of the file *)

Lemma split_lines_single p : single_line p = true -> split_lines p = [p].
Proof.
  induction p as [|c p IH]; simpl; [reflexivity|].
  intros H. apply andb_true_iff in H as [Hc Hp].
  apply negb_true_iff in Hc. rewrite Hc, (IH Hp). reflexivity.
Qed.

Lemma split_lines_app p rest :
  single_line p = true ->
  split_lines (p ++ newline ++ rest) = p :: split_lines rest.
Proof.
  unfold newline. cbn [app].
  induction p as [|c p IH]; simpl; [reflexivity|].
  intros H. apply andb_true_iff in H as [Hc Hp].
  apply negb_true_iff in Hc. rewrite Hc, (IH Hp). reflexivity.
Qed.

Lemma split_lines_join ls :
  ls <> [] -> forallb single_line ls = true ->
  split_lines (join newline ls) = ls.
Proof.
  induction ls as [|p ls IH]; [congruence|]. intros _ H.
  simpl in H. apply andb_true_iff in H as [Hp Hl].
  destruct ls as [|q ls]; [now apply split_lines_single|].
  change (join newline (p :: q :: ls))
    with (p ++ newline ++ join newline (q :: ls)).
  rewrite (@split_lines_app p _ Hp), IH; [reflexivity|discriminate|exact Hl].
Qed.

Lemma single_line_app a b :
  single_line (a ++ b) = single_line a && single_line b.
Proof. apply forallb_app. Qed.

Lemma single_line_cons c s :
  single_line (c :: s) = negb (c =? 10)%N && single_line s.
Proof. reflexivity. Qed.

Lemma uint_digits_single_line u : single_line (uint_digits u) = true.
Proof. induction u; simpl; auto. Qed.

Lemma str_int_single_line z : single_line (str_int z) = true.
Proof. destruct z; simpl; auto using uint_digits_single_line. Qed.

Lemma zfill_single_line w s :
  single_line s = true -> single_line (zfill w s) = true.
Proof.
  intros H. unfold zfill. rewrite single_line_app, H, andb_true_r.
  induction (w - length s)%nat; simpl; auto.
Qed.

Lemma format_0d_single_line w z : single_line (format_0d w z) = true.
Proof.
  destruct z; simpl.
  - apply zfill_single_line. reflexivity.
  - apply zfill_single_line, uint_digits_single_line.
  - apply zfill_single_line, uint_digits_single_line.
Qed.

Section Layout.
Context {F : Type} {num : PyFloat F}.

Lemma format_srt_time_single_line (s : F) ts :
  format_srt_time s = Some ts -> single_line ts = true.
Proof.
  unfold format_srt_time.
  destruct (to_int _) as [h|]; [|discriminate]. cbn [bind].
  destruct (to_int _) as [m|]; [|discriminate]. cbn [bind].
  destruct (to_int _) as [x|]; [|discriminate]. cbn [bind].
  destruct (to_int _) as [l|]; [|discriminate]. cbn [bind].
  intros H. injection H as <-.
  repeat first [rewrite single_line_app | rewrite format_0d_single_line
               | rewrite single_line_cons].
  reflexivity.
Qed.

Lemma render_cue_lines (c : cue F) l :
  render_cue c = Some l ->
  exists stamp,
    l = [str_int (cue_index c); stamp; cue_text c; []]
    /\ single_line stamp = true.
Proof.
  unfold render_cue.
  destruct (format_srt_time (cue_start c)) as [t1|] eqn:E1; [|discriminate].
  destruct (format_srt_time (cue_end c)) as [t2|] eqn:E2; [|discriminate].
  cbn [bind]. intros H. injection H as <-. eexists. split; [reflexivity|].
  pose proof (format_srt_time_single_line _ E1) as H1.
  pose proof (format_srt_time_single_line _ E2) as H2.
  repeat first [rewrite single_line_app | rewrite H1 | rewrite H2
               | rewrite single_line_cons].
  reflexivity.
Qed.

Lemma render_cues_lines (cs : list (cue F)) : forall ls,
  render_cues cs = Some ls ->
  length ls = (4 * length cs)%nat
  /\ (forallb (fun c => single_line (cue_text c)) cs = true ->
      forallb single_line ls = true).
Proof.
  induction cs as [|c cs IH]; intros ls H.
  - injection H as <-. split; reflexivity.
  - cbn [render_cues] in H.
    destruct (render_cue c) as [l|] eqn:E; [|discriminate]. cbn [bind] in H.
    destruct (render_cues cs) as [ls'|]; [|discriminate]. cbn [bind] in H.
    injection H as <-. destruct (IH _ eq_refl) as [Hn Hs].
    destruct (render_cue_lines _ E) as (stamp & -> & Hst). split.
    + simpl. rewrite Hn. simpl. lia.
    + intros Hc. cbn [forallb] in Hc. apply andb_true_iff in Hc as [Hc Hcs].
      cbn [app forallb]. rewrite str_int_single_line, Hst, Hc, (Hs Hcs).
      reflexivity.
Qed.

End Layout.

(** ** The end of a segment *)

Lemma strip_ends s : truthy (strip s) = true -> ends_nonspace (strip s).
Proof. intros H. apply strip_last. now apply truthy_cons. Qed.

Lemma ends_nonspace_app a b : ends_nonspace b -> ends_nonspace (a ++ b).
Proof.
  intros (r & c & -> & Hc). exists (a ++ r), c.
  split; [apply app_assoc|exact Hc].
Qed.

Lemma scan_ends max_len text :
  Forall ends_nonspace (segments (scan max_len scan_init text)).
Proof.
  apply scan_invariant with
    (P := fun st => Forall ends_nonspace (segments st)); [|constructor].
  intros st ch H.
  destruct (scan_step_cases max_len st ch) as [[-> _]|[-> _]]; [|exact H].
  apply close_buffer_Forall; [exact H|apply strip_ends].
Qed.

Lemma split_narration_ends text max_len :
  Forall ends_nonspace (split_narration text max_len).
Proof.
  rewrite split_narration_finish.
  pose proof (scan_ends max_len text) as H.
  destruct (finish_cases (scan max_len scan_init text))
    as [(-> & _)|[(-> & Hr & _)|(-> & Hr & Hne & _)]].
  - exact H.
  - apply Forall_app. split; [exact H|].
    constructor; [now apply strip_ends|constructor].
  - unfold append_to_last. apply Forall_app. split.
    + now apply Forall_removelast.
    + constructor; [|constructor]. now apply ends_nonspace_app, strip_ends.
Qed.

Section Ends.
Context {F : Type} {num : PyFloat F}.

Lemma scene_cues_ends (ck : clock F) sc :
  Forall (fun c => ends_nonspace (cue_text c)) (fst (scene_cues ck sc)).
Proof.
  destruct (blank sc) eqn:E.
  - rewrite (scene_cues_blank _ _ E). constructor.
  - rewrite (scene_cues_nonblank _ _ E). cbv zeta.
    set (segs := split_narration (narration_of sc) 20).
    destruct (segment_cues_structure (duration_of sc) (total_len segs) segs ck)
      as (_ & _ & _ & Ht).
    pose proof (split_narration_ends (narration_of sc) 20) as H.
    fold segs in H.
    apply (proj1 (Forall_map (@cue_text F) ends_nonspace _)).
    rewrite Ht. exact H.
Qed.

Lemma timeline_ends (scs : list (scene F)) : forall ck : clock F,
  Forall (fun c => ends_nonspace (cue_text c)) (fst (timeline ck scs)).
Proof.
  induction scs as [|sc scs IH]; intros ck; [constructor|].
  rewrite timeline_cons. cbv zeta. cbn [fst]. apply Forall_app.
  split; [apply scene_cues_ends|apply IH].
Qed.

End Ends.

Lemma join_snoc sep l x :
  l <> [] -> join sep (l ++ [x]) = join sep l ++ sep ++ x.
Proof.
  induction l as [|p l IH]; [congruence|]. intros _.
  destruct l as [|q l]; [reflexivity|].
  change (join sep ((p :: q :: l) ++ [x]))
    with (p ++ sep ++ join sep ((q :: l) ++ [x])).
  rewrite IH by discriminate.
  change (join sep (p :: q :: l)) with (p ++ sep ++ join sep (q :: l)).
  now rewrite <- !app_assoc.
Qed.

(** The text ends with the last of the four lines of the last cue. *)
Lemma join_last_block pre a b text :
  exists body,
    join newline (pre ++ [a; b; text; []]) = body ++ text ++ newline.
Proof.
  replace (pre ++ [a; b; text; []])
    with (((pre ++ [a; b]) ++ [text]) ++ [[]])
    by (rewrite <- !app_assoc; reflexivity).
  rewrite join_snoc by (intros E; apply app_eq_nil in E as [_ E]; discriminate).
  rewrite join_snoc
    by (intros E; apply app_eq_nil in E as [_ E]; discriminate).
  exists (join newline (pre ++ [a; b]) ++ newline).
  rewrite app_nil_r, <- !app_assoc. reflexivity.
Qed.

(** C9 (as amended): the text returned by generate_srt is the lines of the
    cues joined by line feeds, four lines for each cue in index order: the
    index, start --> end, the segment text as it is, and an empty line;
    whenever no segment contains a line feed, cutting the text at its line
    feeds gives back exactly these lines, so each segment text is one line;
    and when there is a cue the text ends with the last segment, whose last
    character is not whitespace, followed by one line feed. *)
Theorem srt_layout :
  forall (F : Type) (num : PyFloat F) (data : video_data F) (out : pystr),
    generate_srt data = Some out ->
    exists ls,
      render_cues (cues_of data) = Some ls
      /\ out = join newline ls
      /\ length ls = (4 * length (cues_of data))%nat
      /\ (forallb (fun c => single_line (cue_text c)) (cues_of data) = true ->
          srt_block_layout data)
      /\ (forall cs c,
             cues_of data = cs ++ [c] ->
             ends_nonspace (cue_text c)
             /\ exists body, out = body ++ cue_text c ++ newline).
Proof.
  intros F num data out H. rewrite generate_srt_cues in H.
  fold (cues_of data) in H.
  destruct (render_cues (cues_of data)) as [ls|] eqn:E; [|discriminate].
  cbn [bind] in H. injection H as <-. exists ls.
  destruct (render_cues_lines _ E) as [Hn Hs].
  split; [reflexivity|]. split; [reflexivity|]. split; [exact Hn|]. split.
  - intros Hc out' Hout Hne. exists ls. split; [exact E|].
    rewrite generate_srt_cues in Hout. fold (cues_of data) in Hout.
    rewrite E in Hout. cbn [bind] in Hout. injection Hout as <-.
    apply split_lines_join; [|exact (Hs Hc)].
    intros ->. destruct (cues_of data); [congruence|]. simpl in Hn. lia.
  - intros cs c Hcs. split.
    + pose proof (timeline_ends (get (scenes data) []) (1%Z, of_int 0)) as He.
      fold (cues_of data) in He. rewrite Hcs in He.
      apply Forall_app in He as [_ He]. now inversion He.
    + rewrite Hcs, render_cues_app in E.
      destruct (render_cues cs) as [la|]; [|discriminate]. cbn [bind] in E.
      cbn [render_cues] in E.
      destruct (render_cue c) as [l|] eqn:Ec; [|discriminate].
      cbn [bind] in E. injection E as <-.
      destruct (render_cue_lines _ Ec) as (stamp & -> & _).
      rewrite app_nil_r. apply join_last_block.
Qed.

Lemma srt_layout_witness :
  let data := doc [(py "  ", 3%float); (py "Hi.", 2%float)] in
  let out := join newline [py "1"; py "00:00:03,000 --> 00:00:05,000";
                           py "Hi."; py ""] in
  generate_srt data = Some out
  /\ srt_block_layout data
  /\ ends_nonspace (py "Hi.")
  /\ exists body, out = body ++ py "Hi." ++ newline.
Proof.
  intros data out.
  assert (H : generate_srt data = Some out) by (vm_compute; reflexivity).
  split; [exact H|].
  destruct (@srt_layout float binary64_float data out H)
    as (ls & _ & _ & _ & H4 & H5).
  split; [apply H4; vm_compute; reflexivity|].
  apply (H5 [] (Cue 1%Z 3%float 5%float (py "Hi."))).
  vm_compute. reflexivity.
Defined.

(** C9, as stated, fails when a narration contains a line feed inside a
    segment: the text of the only cue of {"narration": "ab\ncd"} takes two
    lines of the output. *)
Lemma embedded_newline_breaks_layout :
  let data := doc [(py "ab" ++ newline ++ py "cd", 5%float)] in
  generate_srt data
  = Some (join newline [py "1"; py "00:00:00,000 --> 00:00:05,000";
                        py "ab" ++ newline ++ py "cd"; py ""])
  /\ option_map split_lines (generate_srt data)
     = Some [py "1"; py "00:00:00,000 --> 00:00:05,000"; py "ab"; py "cd";
             py ""]
  /\ ~ srt_block_layout data.
Proof.
  intros data. split; [vm_compute; reflexivity|].
  split; [vm_compute; reflexivity|]. intros H.
  destruct (H (join newline [py "1"; py "00:00:00,000 --> 00:00:05,000";
                             py "ab" ++ newline ++ py "cd"; py ""]))
    as (ls & Hr & Hs).
  - vm_compute. reflexivity.
  - vm_compute. discriminate.
  - vm_compute in Hr, Hs. rewrite <- Hs in Hr. discriminate Hr.
Qed.

(** ** More on split_narration *)

Lemma content_nil_iff s : content s = [] <-> forallb isspace s = true.
Proof.
  unfold content. induction s as [|c s IH]; simpl; [tauto|].
  unfold nonspace at 1. destruct (isspace c); simpl; [exact IH|].
  split; discriminate.
Qed.

Lemma nonblank_content s : truthy (strip s) = true -> content s <> [].
Proof. rewrite truthy_strip. now destruct (content s). Qed.

(** X1: split_narration returns no segment exactly when the text has no
    non-whitespace character (the empty text included), for every max_len;
    and every segment it returns has a non-whitespace character. *)
Theorem split_narration_empty_iff (text : pystr) (max_len : Z) :
  (split_narration text max_len = [] <-> forallb isspace text = true)
  /\ Forall (fun s => exists c, In c s /\ isspace c = false)
            (split_narration text max_len).
Proof.
  pose proof (content_split_narration text max_len) as R.
  pose proof (split_narration_nonblank text max_len) as Hn.
  split.
  - rewrite <- content_nil_iff. split.
    + intros E. now rewrite E in R.
    + intros E. rewrite E in R.
      destruct (split_narration text max_len) as [|s l]; [reflexivity|].
      inversion Hn as [|? ? Hs _]; subst. apply nonblank_content in Hs.
      simpl in R. rewrite content_app in R.
      apply app_eq_nil in R as [R _]. contradiction.
  - eapply Forall_impl; [|exact Hn]. intros s Hs.
    apply nonblank_content in Hs. unfold content in Hs.
    destruct (filter nonspace s) as [|c r] eqn:E; [congruence|].
    assert (Hin : In c (filter nonspace s)) by (rewrite E; now left).
    apply filter_In in Hin as [Hin Hc]. exists c. split; [exact Hin|].
    now apply negb_true_iff in Hc.
Qed.

(** *** Trimmed segments *)

Lemma lstrip_suffix s : exists p, s = p ++ lstrip s.
Proof.
  induction s as [|c s [p IH]]; [now exists []|]. simpl.
  destruct (isspace c); [|now exists []].
  exists (c :: p). simpl. now f_equal.
Qed.

Lemma rstrip_prefix s : exists q, s = rstrip s ++ q.
Proof.
  unfold rstrip. destruct (lstrip_suffix (rev s)) as [p H].
  exists (rev p). rewrite <- rev_app_distr, <- H. now rewrite rev_involutive.
Qed.

Lemma strip_starts s : strip s <> [] -> starts_nonspace (strip s).
Proof.
  unfold strip. intros H.
  destruct (rstrip_prefix (lstrip s)) as [q Hq].
  destruct (rstrip (lstrip s)) as [|a r] eqn:E; [congruence|].
  exists a, r. split; [reflexivity|].
  apply (@lstrip_head s a (r ++ q)). exact Hq.
Qed.

Lemma strip_fixed s : starts_nonspace s -> ends_nonspace s -> strip s = s.
Proof.
  intros (a & r & Hs & Ha) (r' & c & He & Hc).
  unfold strip, rstrip.
  assert (E1 : lstrip s = s) by (rewrite Hs; simpl; now rewrite Ha).
  rewrite E1, He, rev_app_distr. simpl. rewrite Hc.
  now rewrite <- (rev_involutive r') at 2.
Qed.

Lemma starts_nonspace_app a b : starts_nonspace a -> starts_nonspace (a ++ b).
Proof. intros (c & r & -> & Hc). now exists c, (r ++ b). Qed.

Lemma scan_starts max_len text :
  Forall starts_nonspace (segments (scan max_len scan_init text)).
Proof.
  apply scan_invariant with
    (P := fun st => Forall starts_nonspace (segments st)); [|constructor].
  intros st ch H.
  destruct (scan_step_cases max_len st ch) as [[-> _]|[-> _]]; [|exact H].
  apply close_buffer_Forall; [exact H|]. intros Ht.
  apply strip_starts. now apply truthy_cons.
Qed.

Lemma split_narration_starts text max_len :
  Forall starts_nonspace (split_narration text max_len).
Proof.
  rewrite split_narration_finish.
  pose proof (scan_starts max_len text) as H.
  destruct (finish_cases (scan max_len scan_init text))
    as [(-> & _)|[(-> & Hr & _)|(-> & Hr & Hne & _)]].
  - exact H.
  - apply Forall_app. split; [exact H|].
    constructor; [|constructor]. apply strip_starts. now apply truthy_cons.
  - unfold append_to_last. apply Forall_app. split.
    + now apply Forall_removelast.
    + constructor; [|constructor]. apply starts_nonspace_app.
      rewrite (app_removelast_last [] Hne) in H.
      apply Forall_app in H as [_ H]. now inversion H.
Qed.

(** X2: every segment returned by split_narration is trimmed: it begins and
    ends with a non-whitespace character, so that [strip] leaves it as it
    is (the merged last segment included). *)
Theorem split_narration_trimmed (text : pystr) (max_len : Z) :
  Forall (fun s => strip s = s /\ starts_nonspace s /\ ends_nonspace s)
         (split_narration text max_len).
Proof.
  pose proof (split_narration_starts text max_len) as Hs.
  pose proof (split_narration_ends text max_len) as He.
  rewrite Forall_forall in *. intros s Hin.
  split; [apply strip_fixed; auto|split; auto].
Qed.

(** *** A max_len of 1 or less *)

Lemma strip_one c : strip [c] = if isspace c then [] else [c].
Proof. unfold strip, rstrip. simpl. destruct (isspace c) eqn:E; simpl;
  [reflexivity|]. now rewrite E. Qed.

Lemma content_cons c s :
  content (c :: s) = if isspace c then content s else c :: content s.
Proof. unfold content, nonspace. simpl. now destruct (isspace c). Qed.

Lemma scan_singletons max_len text : forall segs,
  (max_len <= 1)%Z ->
  scan max_len (ScanState segs [] 0) text
  = ScanState (segs ++ map (fun c => [c]) (content text)) [] 0.
Proof.
  induction text as [|ch text IH]; intros segs H.
  - simpl. now rewrite app_nil_r.
  - rewrite scan_cons, scan_step_full by (simpl; lia).
    cbn [segments current app]. unfold close_buffer.
    rewrite strip_one, content_cons.
    destruct (isspace ch); cbn [truthy].
    + apply IH, H.
    + rewrite IH by exact H. cbn [map]. now rewrite <- app_assoc.
Qed.

(** X3: with max_len <= 1 (0 and negative values included) the buffer is
    closed after every character: split_narration returns one segment of one
    character for each non-whitespace character of the text, in order. *)
Theorem split_narration_small_max_len (text : pystr) (max_len : Z) :
  (max_len <= 1)%Z ->
  split_narration text max_len
  = map (fun c => [c]) (filter (fun c => negb (isspace c)) text).
Proof.
  intros H. rewrite split_narration_finish.
  change scan_init with (ScanState [] [] 0).
  rewrite (scan_singletons text [] H). reflexivity.
Qed.

Lemma split_narration_small_max_len_witness :
  (0 <= 1)%Z
  /\ split_narration (py "a b,c") 0 = [py "a"; py "b"; py ","; py "c"].
Proof.
  assert (H : (0 <= 1)%Z) by lia. split; [exact H|].
  rewrite (split_narration_small_max_len (py "a b,c") H).
  vm_compute. reflexivity.
Defined.

(** *** The longest segment *)

Lemma len_app a b : len (a ++ b) = (len a + len b)%Z.
Proof. unfold len. rewrite length_app. lia. Qed.

(** X4: for max_len = N >= 1 no segment of split_narration(text, N) has
    more than N + 4 characters, the merged last segment included. *)
Theorem split_narration_max_length (text : pystr) (N : Z) :
  (1 <= N)%Z ->
  Forall (fun s => (len s <= N + 4)%Z) (split_narration text N).
Proof.
  intros HN. rewrite split_narration_finish.
  destruct (scan_bounded_scan text HN) as (Hl & Hb & Hs).
  assert (Hw : Forall (fun s => (len s <= N + 4)%Z)
                      (segments (scan N scan_init text))).
  { eapply Forall_impl; [|exact Hs]. cbv beta. intros. lia. }
  destruct (finish_cases (scan N scan_init text))
    as [(-> & _)|[(-> & _)|(-> & _ & Hne & Hr & _)]].
  - exact Hw.
  - apply Forall_app. split; [exact Hw|]. constructor; [|constructor].
    pose proof (len_strip (current (scan N scan_init text))). lia.
  - unfold append_to_last. apply Forall_app. split.
    + now apply Forall_removelast.
    + constructor; [|constructor].
      rewrite (app_removelast_last [] Hne) in Hs.
      apply Forall_app in Hs as [_ Hs]. inversion Hs as [|? ? Hlast _]; subst.
      rewrite len_app. apply Z.add_le_mono; [exact Hlast|].
      apply Z.lt_succ_r. exact Hr.
Qed.

Lemma split_narration_max_length_witness :
  (1 <= 3)%Z
  /\ Forall (fun s => (len s <= 3 + 4)%Z) (split_narration (py "abcdefgh") 3).
Proof.
  assert (H : (1 <= 3)%Z) by lia. split; [exact H|].
  exact (split_narration_max_length (py "abcdefgh") H).
Defined.

(** *** Texts without whitespace *)

Lemma flat_scan_plain max_len text : forall st,
  forallb nonspace (current st) = true ->
  forallb nonspace text = true ->
  flat (scan max_len st text) = flat st ++ text
  /\ forallb nonspace (current (scan max_len st text)) = true.
Proof.
  induction text as [|ch text IH]; intros st Hc Ht.
  - rewrite scan_nil, app_nil_r. auto.
  - cbn [forallb] in Ht. apply andb_true_iff in Ht as [Hch Ht].
    assert (Hc' : forallb nonspace (current st ++ [ch]) = true).
    { rewrite forallb_app, Hc. simpl. now rewrite Hch. }
    rewrite scan_cons.
    destruct (scan_step_cases max_len st ch) as [[E _]|[E _]]; rewrite E.
    + destruct (IH (close_buffer (segments st) (current st ++ [ch])))
        as [H1 H2]; [reflexivity|exact Ht|].
      split; [|exact H2]. rewrite H1. unfold flat, close_buffer.
      cbn [segments current]. rewrite (strip_nonspace _ Hc').
      destruct (current st ++ [ch]) as [|x l] eqn:Ex.
      * now destruct (current st).
      * cbn [truthy]. rewrite concat_app. simpl.
        rewrite !app_nil_r, <- Ex, <- !app_assoc. reflexivity.
    + destruct (IH {| segments := segments st;
                      current := current st ++ [ch];
                      current_len := current_len st + 1 |})
        as [H1 H2]; [exact Hc'|exact Ht|].
      split; [|exact H2]. rewrite H1. unfold flat. cbn [segments current].
      now rewrite <- !app_assoc.
Qed.

Lemma concat_finish_plain st :
  forallb nonspace (current st) = true -> concat (finish st) = flat st.
Proof.
  intros Hc. unfold flat.
  destruct (finish_cases st)
    as [(-> & Hr & _)|[(-> & _)|(-> & _ & Hne & _)]];
    rewrite (strip_nonspace _ Hc) in *.
  - apply truthy_nil in Hr. rewrite Hr. now rewrite app_nil_r.
  - rewrite concat_app. simpl. now rewrite app_nil_r.
  - now apply concat_append_to_last.
Qed.

(** X5: for a text without whitespace, and every max_len, the segments of
    split_narration put end to end are the text itself: nothing is lost,
    added or reordered. *)
Theorem split_narration_concat_plain (text : pystr) (max_len : Z) :
  forallb (fun c => negb (isspace c)) text = true ->
  concat (split_narration text max_len) = text.
Proof.
  intros H. rewrite split_narration_finish.
  destruct (@flat_scan_plain max_len text scan_init eq_refl H) as [H1 H2].
  rewrite (concat_finish_plain _ H2), H1. reflexivity.
Qed.

Lemma split_narration_concat_plain_witness :
  concat (split_narration (py "你好，世界！今天天气很好。") 20)
  = py "你好，世界！今天天气很好。".
Proof.
  apply split_narration_concat_plain. vm_compute. reflexivity.
Defined.

Lemma scan_breaks_step max_len st ch :
  nonspace ch = true ->
  scan_breaks max_len st -> scan_breaks max_len (scan_step max_len st ch).
Proof.
  intros Hn (Hl & Hb & Hw & Hs).
  assert (Hw' : forallb nonspace (current st ++ [ch]) = true).
  { rewrite forallb_app, Hw. simpl. now rewrite Hn. }
  destruct (scan_step_cases max_len st ch) as [[-> Hc]|[-> (Hlt & _)]].
  - split; [reflexivity|]. split; [simpl; unfold len in Hl; lia|].
    split; [reflexivity|].
    apply close_buffer_Forall; [exact Hs|]. intros _.
    rewrite (strip_nonspace _ Hw'), len_app_one.
    destruct Hc as [[Hc H5]|Hc].
    + right. split; [now exists (current st), ch|lia].
    + left. lia.
  - split; [simpl; rewrite len_app_one; lia|]. split; [exact Hlt|].
    split; [exact Hw'|exact Hs].
Qed.

Lemma scan_breaks_scan max_len text :
  (1 <= max_len)%Z -> forallb nonspace text = true ->
  scan_breaks max_len (scan max_len scan_init text).
Proof.
  intros H Hp.
  apply scan_invariant_on with (Q := fun c => nonspace c = true).
  - apply scan_breaks_step.
  - now apply forallb_Forall.
  - split; [reflexivity|]. split; [simpl; lia|].
    split; [reflexivity|constructor].
Qed.

(** X6: for a text without whitespace and max_len = N >= 1, every segment
    of split_narration but the last either has exactly N characters (a forced
    cut) or ends with a delimiter and has 5 characters or more: the text is
    only cut at punctuation unless the length forces it. *)
Theorem split_narration_breaks (text : pystr) (N : Z) :
  (1 <= N)%Z ->
  forallb (fun c => negb (isspace c)) text = true ->
  Forall (fun s => len s = N \/ (ends_with_delimiter s /\ (5 <= len s)%Z))
         (removelast (split_narration text N)).
Proof.
  intros HN Hp. rewrite split_narration_finish. apply removelast_finish.
  now destruct (scan_breaks_scan text HN Hp) as (_ & _ & _ & H).
Qed.

Lemma split_narration_breaks_witness :
  (1 <= 20)%Z
  /\ Forall (fun s => len s = 20%Z
                      \/ (ends_with_delimiter s /\ (5 <= len s)%Z))
            (removelast (split_narration
                           (py "你好，世界！今天天气很好。") 20)).
Proof.
  assert (H : (1 <= 20)%Z) by lia. split; [exact H|].
  apply (split_narration_breaks (py "你好，世界！今天天气很好。") H).
  vm_compute. reflexivity.
Defined.

(** X7: for a text without whitespace and max_len = N >= 5, no cue text is
    tiny: every segment of split_narration has 5 characters or more, unless
    the whole text is shorter than 5 characters, in which case it is the one
    segment returned. *)
Theorem split_narration_floor (text : pystr) (N : Z) :
  (5 <= N)%Z ->
  forallb (fun c => negb (isspace c)) text = true ->
  Forall (fun s => (5 <= len s)%Z) (split_narration text N)
  \/ ((len text < 5)%Z /\ split_narration text N = [text]).
Proof.
  intros HN Hp. rewrite split_narration_finish.
  assert (H1 : (1 <= N)%Z) by lia.
  destruct (scan_breaks_scan text H1 Hp) as (_ & _ & Hw & Hs).
  destruct (@flat_scan_plain N text scan_init eq_refl Hp) as [Hf _].
  assert (H5 : Forall (fun s => (5 <= len s)%Z)
                      (segments (scan N scan_init text))).
  { eapply Forall_impl; [|exact Hs]. cbv beta. intros s [E|[_ E]]; lia. }
  destruct (finish_cases (scan N scan_init text))
    as [(-> & _)|[(-> & _ & [He|Hr] & _)|(-> & _ & Hne & _)]];
    rewrite ?(strip_nonspace _ Hw) in *.
  - now left.
  - unfold flat in Hf. rewrite He in *. simpl in Hf. rewrite Hf.
    destruct (Z.lt_ge_cases (len text) 5) as [Hlt|Hge].
    + right. auto.
    + left. constructor; [lia|constructor].
  - left. apply Forall_app. split; [exact H5|]. constructor; [exact Hr|constructor].
  - left. unfold append_to_last. apply Forall_app. split.
    + now apply Forall_removelast.
    + constructor; [|constructor].
      rewrite (app_removelast_last [] Hne) in H5.
      apply Forall_app in H5 as [_ H5]. inversion H5 as [|? ? Hlast _]; subst.
      rewrite len_app.
      pose proof (len_nonneg (current (scan N scan_init text))).
      apply Z.le_trans with (len (last (segments (scan N scan_init text)) []) + 0)%Z;
        [rewrite Z.add_0_r; exact Hlast|].
      apply Z.add_le_mono_l. assumption.
Qed.

Lemma split_narration_floor_witness :
  (5 <= 20)%Z
  /\ (Forall (fun s => (5 <= len s)%Z)
             (split_narration (py "你好，世界！今天天气很好。") 20)
      \/ ((len (py "你好，世界！今天天气很好。") < 5)%Z
          /\ split_narration (py "你好，世界！今天天气很好。") 20
             = [py "你好，世界！今天天气很好。"])).
Proof.
  assert (H : (5 <= 20)%Z) by lia. split; [exact H|].
  apply (split_narration_floor (py "你好，世界！今天天气很好。") H).
  vm_compute. reflexivity.
Defined.

(** ** More on format_srt_time *)






Lemma format_srt_time_None (x : float) :
  isfinite x = false -> format_srt_time x = None.
Proof.
  unfold isfinite. intros H. rewrite <- (SF2Prim_Prim2SF x).
  destruct (Prim2SF x) as [s|s| |s m e]; try discriminate.
  - destruct s; vm_compute; reflexivity.
  - vm_compute. reflexivity.
Qed.

(** X9: on binary64 floats format_srt_time raises for every value that is
    not finite: for an infinity or a NaN, seconds // 3600 is a NaN and int()
    of it raises, so no timestamp is returned. *)
Theorem format_srt_time_not_finite (x : float) :
  isfinite x = false -> format_srt_time x = None.
Proof. exact (format_srt_time_None x). Qed.

Lemma format_srt_time_not_finite_witness :
  format_srt_time infinity = None.
Proof. apply format_srt_time_not_finite. vm_compute. reflexivity. Defined.

(** ** More on generate_srt *)


Section MoreTimeline.
Context {F : Type} {num : PyFloat F}.

Lemma timeline_all_blank (scs : list (scene F)) : forall ck : clock F,
  forallb blank scs = true -> fst (timeline ck scs) = [].
Proof.
  induction scs as [|sc scs IH]; intros ck H; [reflexivity|].
  cbn [forallb] in H. apply andb_true_iff in H as [Hb H].
  rewrite timeline_cons. cbv zeta. cbn [fst].
  rewrite (scene_cues_blank _ _ Hb). cbn [fst snd app]. now apply IH.
Qed.



End MoreTimeline.

(** X10: for every float arithmetic, a document in which every scene has an
    empty, whitespace-only or missing narration gives the empty string, and
    so does a document without the key scenes or with an empty list of
    scenes: nothing is formatted, so nothing can raise, whatever the
    durations are. *)
Theorem generate_srt_all_blank :
  forall (F : Type) (num : PyFloat F) (data : video_data F),
    forallb blank (get (scenes data) []) = true ->
    generate_srt data = Some [].
Proof.
  intros F num data H. rewrite generate_srt_cues.
  now rewrite (timeline_all_blank _ (1%Z, of_int 0) H).
Qed.

Lemma generate_srt_all_blank_witness :
  generate_srt (VideoData (@None (list (scene float)))) = Some []
  /\ generate_srt (VideoData (Some [Scene None (Some infinity);
                                    Scene (Some (py "  ")) None]))
     = Some [].
Proof.
  split; apply generate_srt_all_blank; vm_compute; reflexivity.
Defined.


(** *** The time given to each cue *)




(** *** The cues of one scene fill its time *)




(** ** main: the number of subtitles it prints *)

Lemma count_newlines_app a b :
  count_newlines (a ++ b) = (count_newlines a + count_newlines b)%Z.
Proof.
  unfold count_newlines. rewrite filter_app, length_app.
  apply Nat2Z.inj_add.
Qed.

Lemma count_newlines_single_line s :
  single_line s = true -> count_newlines s = 0%Z.
Proof.
  unfold count_newlines, single_line. induction s as [|c s IH]; simpl;
    [reflexivity|].
  intros H. apply andb_true_iff in H as [Hc Hs]. apply negb_true_iff in Hc.
  rewrite Hc. now apply IH.
Qed.

Lemma count_newlines_join ls :
  ls <> [] -> forallb single_line ls = true ->
  count_newlines (join newline ls) = (Z.of_nat (length ls) - 1)%Z.
Proof.
  induction ls as [|p ls IH]; [congruence|]. intros _ H.
  cbn [forallb] in H. apply andb_true_iff in H as [Hp Hl].
  destruct ls as [|q ls].
  - simpl. now apply count_newlines_single_line.
  - change (join newline (p :: q :: ls))
      with (p ++ newline ++ join newline (q :: ls)).
    rewrite !count_newlines_app, IH by (discriminate || exact Hl).
    rewrite (count_newlines_single_line _ Hp).
    change (count_newlines newline) with 1%Z. simpl length. lia.
Qed.

(** X14: when no segment contains a line feed, the number of subtitles
    that main prints for the text returned by generate_srt,
    srt_content.count(chr(10)) // 4, is one less than the number of cues
    (and 0 when there is none): the text has 4 lines for each cue but only
    4 * cues - 1 line feeds. *)
Theorem reported_subtitles_count :
  forall (F : Type) (num : PyFloat F) (data : video_data F) (out : pystr),
    generate_srt data = Some out ->
    forallb (fun c => single_line (cue_text c)) (cues_of data) = true ->
    reported_subtitles out
    = Z.max 0 (Z.of_nat (length (cues_of data)) - 1).
Proof.
  intros F num data out H Hs. rewrite generate_srt_cues in H.
  fold (cues_of data) in H.
  destruct (render_cues (cues_of data)) as [ls|] eqn:E; [|discriminate].
  cbn [bind] in H. injection H as <-.
  destruct (render_cues_lines _ E) as [Hn Hl]. specialize (Hl Hs).
  unfold reported_subtitles.
  destruct ls as [|l ls].
  - simpl in Hn. destruct (cues_of data); [reflexivity|simpl in Hn; lia].
  - rewrite count_newlines_join by (discriminate || exact Hl).
    assert (Hpos : (1 <= length (cues_of data))%nat)
      by (simpl length in Hn; lia).
    rewrite Hn, Nat2Z.inj_mul. change (Z.of_nat 4) with 4%Z.
    Z.div_mod_to_equations. lia.
Qed.

Lemma reported_subtitles_count_witness :
  let data := doc [(py "你好，世界！今天天气很好。", 10%float)] in
  let out := join newline
               [py "1"; py "00:00:00,000 --> 00:00:04,615"; py "你好，世界！";
                py ""; py "2"; py "00:00:04,615 --> 00:00:10,000";
                py "今天天气很好。"; py ""] in
  reported_subtitles out = Z.max 0 (Z.of_nat (length (cues_of data)) - 1)
  /\ reported_subtitles out = 1%Z /\ length (cues_of data) = 2%nat.
Proof.
  intros data out. split; [|split; vm_compute; reflexivity].
  apply (@reported_subtitles_count float binary64_float data out);
    vm_compute; reflexivity.
Defined.

(** ** Durations that are not finite *)

Lemma isfinite_mul_l (x y : float) :
  isfinite x = false -> isfinite (x * y)%float = false.
Proof.
  unfold isfinite. rewrite mul_spec.
  destruct (Prim2SF x) as [s|s| |s m e]; try discriminate; intros _;
    destruct (Prim2SF y) as [t|t| |t n f]; reflexivity.
Qed.

Lemma isfinite_add_l (x y : float) :
  isfinite x = false -> isfinite (x + y)%float = false.
Proof.
  unfold isfinite. rewrite add_spec.
  destruct (Prim2SF x) as [s|s| |s m e]; try discriminate; intros _;
    destruct (Prim2SF y) as [t|t| |t n f]; try reflexivity;
    destruct s, t; reflexivity.
Qed.

Lemma isfinite_add_r (x y : float) :
  isfinite y = false -> isfinite (x + y)%float = false.
Proof.
  unfold isfinite. rewrite add_spec.
  destruct (Prim2SF y) as [t|t| |t n f]; try discriminate; intros _;
    destruct (Prim2SF x) as [s|s| |s m e]; try reflexivity;
    destruct s, t; reflexivity.
Qed.

(** A cue whose start or end is not finite cannot be written. *)
Lemma emit_segments_None (duration : float) total st seg segs :
  isfinite (cum_time st) = false
  \/ isfinite (cum_time st + seg_duration duration total seg)%float = false ->
  emit_segments duration total st (seg :: segs) = None.
Proof.
  intros H. unfold emit_segments. cbn [fold_left bind].
  assert (E : emit_segment duration total st seg = None).
  { unfold emit_segment. destruct H as [H|H].
    - now rewrite (format_srt_time_None _ H).
    - cbn [fadd binary64_float]. rewrite (format_srt_time_None _ H).
      now destruct (format_srt_time (cum_time st)). }
  rewrite E. apply fold_bind_None.
Qed.

Lemma process_scene_nonblank_None (st : gen_state float) sc :
  blank sc = false ->
  isfinite (cum_time st) = false \/ isfinite (duration_of sc) = false ->
  process_scene st sc = None.
Proof.
  intros Hb H. unfold process_scene.
  unfold blank, narration_of in Hb. rewrite Hb.
  destruct (split_narration (get (narration sc) []) 20) as [|seg segs] eqn:E.
  - apply negb_false_iff in Hb.
    pose proof (@total_len_pos (get (narration sc) []) 20 Hb) as Hp.
    rewrite E in Hp. change (total_len []) with 0%Z in Hp. lia.
  - apply emit_segments_None. destruct H as [H|H]; [now left|right].
    apply isfinite_add_r. unfold seg_duration. cbn [fmul binary64_float].
    now apply isfinite_mul_l.
Qed.

Lemma process_scenes_cons {F : Type} {num : PyFloat F}
      (st : gen_state F) sc scs :
  process_scenes st (sc :: scs)
  = (st' <- process_scene st sc ;; process_scenes st' scs).
Proof.
  unfold process_scenes. cbn [fold_left bind].
  destruct (process_scene st sc); [reflexivity|apply fold_bind_None].
Qed.

Lemma process_scenes_app {F : Type} {num : PyFloat F}
      (st : gen_state F) a b :
  process_scenes st (a ++ b)
  = (st' <- process_scenes st a ;; process_scenes st' b).
Proof.
  unfold process_scenes. rewrite fold_left_app.
  destruct (fold_left _ a (Some st)); [reflexivity|apply fold_bind_None].
Qed.

Lemma process_scene_blank {F : Type} {num : PyFloat F}
      (st : gen_state F) sc :
  blank sc = true ->
  process_scene st sc
  = Some {| lines := lines st; subtitle_index := subtitle_index st;
            cum_time := fadd (cum_time st) (duration_of sc) |}.
Proof.
  intros Hb. unfold process_scene. unfold blank, narration_of in Hb.
  now rewrite Hb.
Qed.

(** Once the clock is not finite, the next scene with a narration raises. *)
Lemma process_scenes_clock_None (scs : list (scene float)) : forall st,
  isfinite (cum_time st) = false ->
  existsb (fun sc => negb (blank sc)) scs = true ->
  process_scenes st scs = None.
Proof.
  induction scs as [|sc scs IH]; intros st Hc Hex; [discriminate|].
  rewrite process_scenes_cons. cbn [existsb] in Hex.
  destruct (blank sc) eqn:Hb.
  - rewrite (process_scene_blank _ _ Hb). cbn [bind].
    apply IH; [|exact Hex]. cbn [cum_time fadd binary64_float].
    now apply isfinite_add_l.
  - now rewrite (process_scene_nonblank_None st sc Hb (or_introl Hc)).
Qed.

(** X15: on binary64 floats generate_srt raises as soon as a scene has a
    durationSeconds that is an infinity or a NaN and that scene, or a later
    one, has a narration with a non-whitespace character: the time to format
    is then not finite and int() raises in format_srt_time. *)
Theorem generate_srt_not_finite (data : video_data float)
        (before after : list (scene float)) (bad : scene float) :
  get (scenes data) [] = before ++ bad :: after ->
  isfinite (duration_of bad) = false ->
  existsb (fun sc => negb (blank sc)) (bad :: after) = true ->
  generate_srt data = None.
Proof.
  intros Hs Hd Hex. unfold generate_srt.
  rewrite Hs, process_scenes_app.
  destruct (process_scenes gen_init before) as [st|]; [|reflexivity].
  cbn [bind]. rewrite process_scenes_cons. cbn [existsb] in Hex.
  destruct (blank bad) eqn:Hb.
  - rewrite (process_scene_blank _ _ Hb). cbn [bind].
    rewrite process_scenes_clock_None; [reflexivity| |exact Hex].
    cbn [cum_time fadd binary64_float]. now apply isfinite_add_r.
  - now rewrite (process_scene_nonblank_None st bad Hb (or_intror Hd)).
Qed.

Lemma generate_srt_not_finite_witness :
  generate_srt (doc [(py "One.", 1%float); (py "  ", infinity);
                     (py "Hi.", 2%float)]) = None.
Proof.
  apply (@generate_srt_not_finite _
           [Scene (Some (py "One.")) (Some 1%float)]
           [Scene (Some (py "Hi.")) (Some 2%float)]
           (Scene (Some (py "  ")) (Some infinity)));
    vm_compute; reflexivity.
Defined.

(** ** A narration that fits in one segment *)

(** Below [max_len], characters that are not delimiters are only
    accumulated. *)
Lemma scan_no_delimiter max_len text : forall st,
  current_len st = len (current st) ->
  (len (current st) + len text < max_len)%Z ->
  forallb (fun c => negb (is_delimiter c)) text = true ->
  scan max_len st text
  = {| segments := segments st; current := current st ++ text;
       current_len := (current_len st + len text)%Z |}.
Proof.
  induction text as [|ch text IH]; intros st Hl Hm Hd.
  - rewrite scan_nil, app_nil_r. change (len []) with 0%Z.
    rewrite Z.add_0_r. now destruct st.
  - cbn [forallb] in Hd. apply andb_true_iff in Hd as [Hc Hd].
    apply negb_true_iff in Hc.
    assert (Hr : len (ch :: text) = (1 + len text)%Z)
      by (unfold len; simpl length; lia).
    pose proof (len_nonneg text). rewrite Hr in *. rewrite scan_cons.
    destruct (scan_step_cases max_len st ch) as [[_ Hx]|[-> _]].
    + destruct Hx as [[Hx _]|Hx]; [congruence|lia].
    + rewrite IH; cbn [segments current current_len];
        rewrite ?len_app_one; try lia; try exact Hd.
      rewrite <- app_assoc. cbn [app]. f_equal. lia.
Qed.

(** X16: a narration shorter than max_len that has a non-whitespace
    character and no delimiter after its first 4 characters is returned as
    one segment, its trimmed text: without punctuation to cut at, a short
    narration is one cue. *)
Theorem split_narration_single (head rest : pystr) (max_len : Z) :
  (len head <= 4)%Z ->
  forallb (fun c => negb (is_delimiter c)) rest = true ->
  (len (head ++ rest) < max_len)%Z ->
  truthy (strip (head ++ rest)) = true ->
  split_narration (head ++ rest) max_len = [strip (head ++ rest)].
Proof.
  intros Hh Hd Hm Ht. rewrite split_narration_finish, scan_app.
  rewrite len_app in Hm. pose proof (len_nonneg rest).
  pose proof (len_nonneg head).
  rewrite (@scan_short max_len head scan_init)
    by (try reflexivity; change (len (current scan_init)) with 0%Z; lia).
  rewrite scan_no_delimiter; cbn [segments current current_len app scan_init];
    [|reflexivity|lia|exact Hd].
  destruct (finish_cases
              {| segments := []; current := head ++ rest;
                 current_len := 0 + len head + len rest |})
    as [(_ & Hr & _)|[(-> & _)|(_ & _ & Hne & _)]];
    cbn [segments current] in *; [congruence|reflexivity|congruence].
Qed.

Lemma split_narration_single_witness :
  split_narration (py "Hi, " ++ py "how are you") 20
  = [strip (py "Hi, " ++ py "how are you")].
Proof.
  apply split_narration_single; vm_compute; first [reflexivity|discriminate].
Defined.

(** ** Forced cuts at max_len *)







(** * Binary64 arithmetic

    What the script computes on Python floats: the operations of IEEE
    binary64 as [SpecFloat] defines them, with the values read as
    rationals. *)

(** ** Values of binary64 numbers *)

(** ** Powers of two *)

Lemma pow2_pos e : (0 < pow2 e)%Q.
Proof. apply Qpower_0_lt. reflexivity. Qed.

Lemma pow2_add a b : (pow2 (a + b) == pow2 a * pow2 b)%Q.
Proof. apply Qpower_plus. discriminate. Qed.

Lemma pow2_0 : (pow2 0 == 1)%Q.
Proof. reflexivity. Qed.

Lemma pow2_le a b : (a <= b)%Z -> (pow2 a <= pow2 b)%Q.
Proof. intros H. apply Qpower_le_compat_l; [exact H|discriminate]. Qed.

Lemma pow2_lt a b : (a < b)%Z -> (pow2 a < pow2 b)%Q.
Proof. intros H. apply Qpower_lt_compat_l; [exact H|reflexivity]. Qed.

Lemma pow2_Z n : (0 <= n)%Z -> (pow2 n == inject_Z (2 ^ n))%Q.
Proof. intros H. unfold pow2. now rewrite Zpower_Qpower. Qed.

Lemma pow2_opp a : (pow2 a * pow2 (- a) == 1)%Q.
Proof. rewrite <- pow2_add, Z.add_opp_diag_r. reflexivity. Qed.

Lemma scaled_shift m e k :
  (0 <= k)%Z -> (scaled (m * 2 ^ k) e == scaled m (e + k))%Q.
Proof.
  intros H. unfold scaled.
  rewrite inject_Z_mult, pow2_add, <- pow2_Z by exact H.
  ring.
Qed.

Lemma scaled_le m1 m2 e : (m1 <= m2)%Z -> (scaled m1 e <= scaled m2 e)%Q.
Proof.
  intros H. unfold scaled. apply Qmult_le_compat_r.
  - now rewrite <- Zle_Qle.
  - apply Qlt_le_weak, pow2_pos.
Qed.

Lemma scaled_le_inv m1 m2 e : (scaled m1 e <= scaled m2 e)%Q -> (m1 <= m2)%Z.
Proof.
  unfold scaled. intros H. rewrite Zle_Qle.
  apply Qmult_le_r in H; [exact H|apply pow2_pos].
Qed.

Lemma scaled_lt m1 m2 e : (m1 < m2)%Z -> (scaled m1 e < scaled m2 e)%Q.
Proof.
  intros H. unfold scaled. apply Qmult_lt_compat_r.
  - apply pow2_pos.
  - now rewrite <- Zlt_Qlt.
Qed.

Lemma scaled_lt_inv m1 m2 e : (scaled m1 e < scaled m2 e)%Q -> (m1 < m2)%Z.
Proof.
  unfold scaled. intros H. rewrite Zlt_Qlt.
  apply Qmult_lt_r in H; [exact H|apply pow2_pos].
Qed.

(** ** Binary digits *)

Lemma digits2_pos_size p : digits2_pos p = Pos.size p.
Proof. induction p; simpl; congruence. Qed.

Lemma digits2_bounds p :
  (2 ^ (Zpos (digits2_pos p) - 1) <= Zpos p < 2 ^ Zpos (digits2_pos p))%Z.
Proof.
  rewrite digits2_pos_size. split.
  - pose proof (Pos.size_le p) as H.
    assert (H' : (2 ^ Zpos (Pos.size p) <= 2 * Zpos p)%Z).
    { change 2%Z with (Zpos 2). rewrite <- Pos2Z.inj_pow.
      change (Zpos 2 * Zpos p)%Z with (Zpos (p~0)). now apply Pos2Z.pos_le_pos. }
    replace (Zpos (Pos.size p)) with (Z.succ (Zpos (Pos.size p) - 1)) in H' by lia.
    rewrite Z.pow_succ_r in H' by lia. lia.
  - pose proof (Pos.size_gt p) as H.
    change 2%Z with (Zpos 2). rewrite <- Pos2Z.inj_pow.
    now apply Pos2Z.pos_lt_pos.
Qed.

Lemma digits2_unique p d :
  (2 ^ (d - 1) <= Zpos p < 2 ^ d)%Z -> Zpos (digits2_pos p) = d.
Proof.
  intros [H1 H2]. destruct (digits2_bounds p) as [B1 B2].
  assert (0 < d)%Z.
  { destruct (Z_lt_le_dec 0 d) as [|Hd]; [assumption|].
    destruct (Z.eq_dec d 0) as [->|]; [simpl in H2; lia|].
    rewrite Z.pow_neg_r in H2 by lia. lia. }
  destruct (Z.lt_trichotomy (Zpos (digits2_pos p)) d) as [L|[E|G]];
    [|exact E|].
  - assert (2 ^ Zpos (digits2_pos p) <= 2 ^ (d - 1))%Z
      by (apply Z.pow_le_mono_r; lia). lia.
  - assert (2 ^ d <= 2 ^ (Zpos (digits2_pos p) - 1))%Z
      by (apply Z.pow_le_mono_r; lia). lia.
Qed.

(** ** Shifting a mantissa to the right *)

Lemma loc_of_shr_record_of_loc m l :
  loc_of_shr_record (shr_record_of_loc m l) = l.
Proof. destruct l as [|[| |]]; reflexivity. Qed.

Lemma shr_m_shr_record_of_loc m l : shr_m (shr_record_of_loc m l) = m.
Proof. destruct l as [|[| |]]; reflexivity. Qed.

Lemma inject_Z_xO p : (inject_Z (Zpos p~0) == 2 * inject_Z (Zpos p))%Q.
Proof. change (Zpos p~0) with (2 * Zpos p)%Z. now rewrite inject_Z_mult. Qed.

Lemma inject_Z_xI p : (inject_Z (Zpos p~1) == 2 * inject_Z (Zpos p) + 1)%Q.
Proof.
  change (Zpos p~1) with (2 * Zpos p + 1)%Z.
  now rewrite inject_Z_plus, inject_Z_mult.
Qed.

(** One step keeps the position of the value, halved. *)
Lemma shr_1_spec mrs v :
  (0 <= shr_m mrs)%Z ->
  inbetween v (shr_m mrs) (loc_of_shr_record mrs) ->
  (0 <= shr_m (shr_1 mrs))%Z
  /\ inbetween (v * (1 # 2)) (shr_m (shr_1 mrs)) (loc_of_shr_record (shr_1 mrs)).
Proof.
  destruct mrs as [m r s]. cbn [shr_m]. intros Hm H.
  destruct m as [|p|p]; [| |lia].
  - destruct r, s; cbn [shr_1 shr_m loc_of_shr_record orb inbetween] in *;
      (split; [lia|]); change (inject_Z 0) with 0%Q in *; lra.
  - destruct p as [p|p|]; destruct r, s; cbn [shr_1 shr_m loc_of_shr_record orb inbetween] in *;
      (split; [lia|]);
      rewrite ?inject_Z_xI, ?inject_Z_xO in H;
      change (inject_Z 1) with 1%Q in *; change (inject_Z 0) with 0%Q in *;
      lra.
Qed.

Lemma inbetween_compat v v' m l :
  (v == v')%Q -> inbetween v m l -> inbetween v' m l.
Proof. intros E. destruct l as [|[| |]]; cbn; rewrite E; auto. Qed.

Lemma iter_shr_1_spec p : forall mrs v,
  (0 <= shr_m mrs)%Z ->
  inbetween v (shr_m mrs) (loc_of_shr_record mrs) ->
  (0 <= shr_m (iter_pos shr_1 p mrs))%Z
  /\ inbetween (v * pow2 (- Zpos p)) (shr_m (iter_pos shr_1 p mrs))
               (loc_of_shr_record (iter_pos shr_1 p mrs)).
Proof.
  induction p as [p IH|p IH|]; intros mrs v Hm H; cbn [iter_pos].
  - destruct (@shr_1_spec mrs v Hm H) as [Hm1 H1].
    destruct (IH _ _ Hm1 H1) as [Hm2 H2].
    destruct (IH _ _ Hm2 H2) as [Hm3 H3].
    split; [exact Hm3|]. revert H3. apply inbetween_compat.
    replace (- Zpos p~1)%Z with (-1 + (- Zpos p + - Zpos p))%Z by lia.
    rewrite !pow2_add. change (pow2 (-1)) with (1 # 2)%Q. ring.
  - destruct (IH _ _ Hm H) as [Hm2 H2].
    destruct (IH _ _ Hm2 H2) as [Hm3 H3].
    split; [exact Hm3|]. revert H3. apply inbetween_compat.
    replace (- Zpos p~0)%Z with (- Zpos p + - Zpos p)%Z by lia.
    rewrite !pow2_add. ring.
  - destruct (@shr_1_spec mrs v Hm H) as [Hm1 H1].
    split; [exact Hm1|exact H1].
Qed.

(** [inbetween] determines the integer: it is the floor of the value. *)
Lemma inbetween_floor v m l : inbetween v m l -> Qfloor v = m.
Proof.
  intros H.
  assert (B : (inject_Z m <= v /\ v < inject_Z m + 1)%Q)
    by (destruct l as [|[| |]]; cbn in H; lra).
  destruct B as [B1 B2].
  apply Z.le_antisymm.
  - apply Z.lt_succ_r. rewrite Zlt_Qlt.
    eapply Qle_lt_trans; [apply Qfloor_le|].
    unfold Z.succ. rewrite inject_Z_plus. exact B2.
  - rewrite <- (Qfloor_Z m). now apply Qfloor_resp_le.
Qed.

Lemma inbetween_bounds v m l :
  inbetween v m l -> (inject_Z m <= v /\ v < inject_Z m + 1)%Q.
Proof. destruct l as [|[| |]]; cbn; intros H; lra. Qed.

Lemma inbetween_exact v m : inbetween v m loc_Exact -> (v == inject_Z m)%Q.
Proof. auto. Qed.

Lemma inbetween_inexact v m c :
  inbetween v m (loc_Inexact c) -> (inject_Z m < v)%Q.
Proof. destruct c; cbn; intros H; lra. Qed.

(** [shr]: the exponent grows by the shift, the value is kept. *)
Lemma shr_spec mrs e n v :
  (0 <= shr_m mrs)%Z ->
  inbetween v (shr_m mrs) (loc_of_shr_record mrs) ->
  let r := shr mrs e n in
  let k := Z.max 0 n in
  snd r = (e + k)%Z
  /\ (0 <= shr_m (fst r))%Z
  /\ inbetween (v * pow2 (- k)) (shr_m (fst r)) (loc_of_shr_record (fst r)).
Proof.
  intros Hm H.
  assert (H0 : inbetween (v * pow2 (- 0)) (shr_m mrs) (loc_of_shr_record mrs)).
  { revert H. apply inbetween_compat. change (pow2 (- 0)) with 1%Q. ring. }
  destruct n as [|p|p]; cbn [shr fst snd].
  - change (Z.max 0 0) with 0%Z. split; [lia|]. split; [exact Hm|exact H0].
  - change (Z.max 0 (Z.pos p)) with (Z.pos p).
    split; [reflexivity|]. now apply iter_shr_1_spec.
  - change (Z.max 0 (Z.neg p)) with 0%Z. split; [lia|]. split; [exact Hm|exact H0].
Qed.

(** ** The exponent of the format *)

Lemma fexp_eq e : fexp prec emax e = Z.max (e - 53) (-1074)%Z.
Proof. reflexivity. Qed.

Lemma Zdigits2_bounds m :
  (0 < m)%Z -> (2 ^ (Zdigits2 m - 1) <= m < 2 ^ Zdigits2 m)%Z.
Proof. destruct m as [|p|p]; try lia. intros _. apply digits2_bounds. Qed.

Lemma Zdigits2_unique m d :
  (2 ^ (d - 1) <= m < 2 ^ d)%Z -> (0 < m)%Z -> Zdigits2 m = d.
Proof.
  destruct m as [|p|p]; try lia. intros H _. now apply digits2_unique.
Qed.

Lemma Zdigits2_pos m : (0 < m)%Z -> (0 < Zdigits2 m)%Z.
Proof. destruct m; simpl; lia. Qed.

Lemma canonical_canonZ m e :
  canonical_mantissa prec emax m e = true <-> canonZ (Zpos m) e.
Proof.
  unfold canonical_mantissa, canonZ. cbn [Zdigits2]. rewrite Z.eqb_eq.
  intuition lia.
Qed.

(** The digits of a mantissa shifted to the right by [k]. *)
Lemma digits_shift mx m' k d :
  (0 <= k)%Z -> (0 < m')%Z ->
  (2 ^ (d - 1) <= mx < 2 ^ d)%Z ->
  (m' * 2 ^ k <= mx < (m' + 1) * 2 ^ k)%Z ->
  (k < d)%Z /\ (2 ^ (d - k - 1) <= m' < 2 ^ (d - k))%Z.
Proof.
  intros Hk Hm [D1 D2] [S1 S2].
  assert (P : (0 < 2 ^ k)%Z) by (apply Z.pow_pos_nonneg; lia).
  assert (Hkd : (k < d)%Z).
  { destruct (Z_lt_le_dec k d) as [|Hge]; [assumption|].
    destruct (Z_lt_le_dec d 0).
    - rewrite Z.pow_neg_r in D2 by lia. nia.
    - assert (2 ^ d <= 2 ^ k)%Z by (apply Z.pow_le_mono_r; lia). nia. }
  split; [exact Hkd|].
  assert (E1 : (2 ^ d = 2 ^ (d - k) * 2 ^ k)%Z)
    by (rewrite <- Z.pow_add_r by lia; f_equal; lia).
  assert (E2 : (2 ^ (d - 1) = 2 ^ (d - k - 1) * 2 ^ k)%Z)
    by (rewrite <- Z.pow_add_r by lia; f_equal; lia).
  split; nia.
Qed.

Lemma shifted_bounds v mx lx k m' l' :
  (0 <= k)%Z -> inbetween v mx lx -> inbetween (v * pow2 (- k)) m' l' ->
  (m' * 2 ^ k <= mx < (m' + 1) * 2 ^ k)%Z.
Proof.
  intros Hk H H'. apply inbetween_bounds in H, H'.
  destruct H as [A1 A2], H' as [B1 B2].
  assert (P : (0 < pow2 k)%Q) by apply pow2_pos.
  assert (E : (v == v * pow2 (- k) * pow2 k)%Q).
  { rewrite <- Qmult_assoc, (Qmult_comm (pow2 (- k))), pow2_opp. ring. }
  assert (C1 : (inject_Z (m' * 2 ^ k) <= v)%Q).
  { rewrite inject_Z_mult, <- pow2_Z, E by exact Hk.
    apply Qmult_le_compat_r; [exact B1|now apply Qlt_le_weak]. }
  assert (C2 : (v < inject_Z ((m' + 1) * 2 ^ k))%Q).
  { rewrite inject_Z_mult, inject_Z_plus, <- pow2_Z by exact Hk.
    rewrite E at 1. apply Qmult_lt_compat_r; [exact P|exact B2]. }
  split.
  - apply Z.lt_succ_r. rewrite Zlt_Qlt. unfold Z.succ.
    rewrite inject_Z_plus. change (inject_Z 1) with 1%Q. lra.
  - rewrite Zlt_Qlt. lra.
Qed.

(** The first shift of [binary_round_aux]. *)
Lemma shr_fexp_spec mx ex lx v :
  (0 <= mx)%Z -> inbetween v mx lx ->
  let r := shr_fexp prec emax mx ex lx in
  let k := Z.max 0 (fexp prec emax (Zdigits2 mx + ex) - ex) in
  snd r = (ex + k)%Z
  /\ (0 <= shr_m (fst r))%Z
  /\ inbetween (v * pow2 (- k)) (shr_m (fst r)) (loc_of_shr_record (fst r))
  /\ (shr_m (fst r) * 2 ^ k <= mx < (shr_m (fst r) + 1) * 2 ^ k)%Z.
Proof.
  intros Hm H r k.
  destruct (@shr_spec (shr_record_of_loc mx lx) ex
              (fexp prec emax (Zdigits2 mx + ex) - ex) v) as (A & B & C).
  - now rewrite shr_m_shr_record_of_loc.
  - now rewrite shr_m_shr_record_of_loc, loc_of_shr_record_of_loc.
  - split; [exact A|]. split; [exact B|]. split; [exact C|].
    eapply shifted_bounds; [|exact H|exact C]. lia.
Qed.

Lemma round_nearest_even_bounds m l :
  (m <= round_nearest_even m l <= m + 1)%Z
  /\ (l = loc_Exact -> round_nearest_even m l = m).
Proof.
  destruct l as [|[| |]]; cbn; try destruct (Z.even m); split; try lia; try discriminate;
    reflexivity.
Qed.

(** ** Comparing scaled integers *)

Lemma scaled_align m e e' :
  (e' <= e)%Z -> (scaled m e == scaled (m * 2 ^ (e - e')) e')%Q.
Proof.
  intros H. rewrite scaled_shift by lia. replace (e' + (e - e'))%Z with e by lia.
  reflexivity.
Qed.

Lemma scaled_le_l m1 e1 m2 e2 :
  (e1 <= e2)%Z ->
  (scaled m1 e1 <= scaled m2 e2)%Q <-> (m1 <= m2 * 2 ^ (e2 - e1))%Z.
Proof.
  intros H. rewrite (@scaled_align m2 e2 e1) by exact H.
  split; [apply scaled_le_inv|apply scaled_le].
Qed.

Lemma scaled_lt_l m1 e1 m2 e2 :
  (e1 <= e2)%Z ->
  (scaled m1 e1 < scaled m2 e2)%Q <-> (m1 < m2 * 2 ^ (e2 - e1))%Z.
Proof.
  intros H. rewrite (@scaled_align m2 e2 e1) by exact H.
  split; [apply scaled_lt_inv|apply scaled_lt].
Qed.

Lemma scaled_le_r m1 e1 m2 e2 :
  (e2 <= e1)%Z ->
  (scaled m1 e1 <= scaled m2 e2)%Q <-> (m1 * 2 ^ (e1 - e2) <= m2)%Z.
Proof.
  intros H. rewrite (@scaled_align m1 e1 e2) by exact H.
  split; [apply scaled_le_inv|apply scaled_le].
Qed.

Lemma scaled_lt_r m1 e1 m2 e2 :
  (e2 <= e1)%Z ->
  (scaled m1 e1 < scaled m2 e2)%Q <-> (m1 * 2 ^ (e1 - e2) < m2)%Z.
Proof.
  intros H. rewrite (@scaled_align m1 e1 e2) by exact H.
  split; [apply scaled_lt_inv|apply scaled_lt].
Qed.

Lemma scaled_pow2 n e : (0 <= n)%Z -> (scaled (2 ^ n) e == pow2 (n + e))%Q.
Proof.
  intros H. unfold scaled. rewrite <- pow2_Z by exact H. now rewrite pow2_add.
Qed.

(** The magnitude of a scaled positive integer. *)
Lemma scaled_mag m e :
  (0 < m)%Z ->
  (pow2 (Zdigits2 m + e - 1) <= scaled m e /\ scaled m e < pow2 (Zdigits2 m + e))%Q.
Proof.
  intros H. destruct (Zdigits2_bounds H) as [B1 B2].
  pose proof (Zdigits2_pos H) as Hd.
  split.
  - replace (Zdigits2 m + e - 1)%Z with ((Zdigits2 m - 1) + e)%Z by lia.
    rewrite <- scaled_pow2 by lia. now apply scaled_le.
  - rewrite <- scaled_pow2 by lia. now apply scaled_lt.
Qed.

Lemma pow2_lt_inv a b : (pow2 a < pow2 b)%Q -> (a < b)%Z.
Proof. intros H. apply (Qpower_lt_compat_l_inv 2); [exact H|reflexivity]. Qed.

(** Order of magnitudes from the order of values. *)
Lemma mag_le m1 e1 m2 e2 :
  (0 < m1)%Z -> (0 < m2)%Z ->
  (scaled m1 e1 <= scaled m2 e2)%Q ->
  (Zdigits2 m1 + e1 <= Zdigits2 m2 + e2)%Z.
Proof.
  intros H1 H2 H.
  destruct (scaled_mag e1 H1) as [A _]. destruct (scaled_mag e2 H2) as [_ B].
  assert (L : (pow2 (Zdigits2 m1 + e1 - 1) < pow2 (Zdigits2 m2 + e2))%Q) by lra.
  apply pow2_lt_inv in L. lia.
Qed.

Lemma canonZ_digits m e : canonZ m e -> (Zdigits2 m <= 53 /\ -1074 <= e)%Z.
Proof. intros [H1 H2]. rewrite fexp_eq in H2. lia. Qed.

(** Canonical mantissas: the order of the exponents is the order of the
    values. *)
Lemma canonZ_exp_le m1 e1 m2 e2 :
  canonZ m1 e1 -> canonZ m2 e2 ->
  (scaled m1 e1 <= scaled m2 e2)%Q -> (e1 <= e2)%Z.
Proof.
  intros [P1 C1] [P2 C2] H. pose proof (@mag_le m1 e1 m2 e2 P1 P2 H) as M.
  rewrite fexp_eq in *. lia.
Qed.

Lemma canonZ_unique m1 e1 m2 e2 :
  canonZ m1 e1 -> canonZ m2 e2 ->
  (scaled m1 e1 == scaled m2 e2)%Q -> m1 = m2 /\ e1 = e2.
Proof.
  intros C1 C2 H.
  assert (E : e1 = e2).
  { apply Z.le_antisymm; eapply canonZ_exp_le; eauto; rewrite H; apply Qle_refl. }
  subst e2. split; [|reflexivity].
  apply Z.le_antisymm; apply (@scaled_le_inv _ _ e1); rewrite H; apply Qle_refl.
Qed.

(** ** Rounding to the format *)

(** The digits of the mantissa after the first shift and the rounding. *)
Lemma round_digits mx ex m' m'' :
  (0 < mx)%Z ->
  let E := fexp prec emax (Zdigits2 mx + ex) in
  let k := (E - ex)%Z in
  (0 <= k)%Z -> (0 <= m')%Z ->
  (m' * 2 ^ k <= mx < (m' + 1) * 2 ^ k)%Z ->
  (m' <= m'' <= m' + 1)%Z ->
  (m'' = 0%Z
   \/ (0 < m'' /\ fexp prec emax (Zdigits2 m'' + E) = E)%Z
   \/ (m'' = 2 ^ 53 /\ -1074 <= E)%Z)
  /\ (0 < m' -> Zdigits2 m' + E = Zdigits2 mx + ex /\ Zdigits2 m' <= 53)%Z
  /\ (m' = 0 -> E = -1074)%Z.
Proof.
  intros Hmx E k Hk Hm' Hs Hr.
  destruct (Zdigits2_bounds Hmx) as [D1 D2].
  pose proof (Zdigits2_pos Hmx) as Hd.
  set (d := Zdigits2 mx) in *.
  assert (HE : E = Z.max (d + ex - 53) (-1074)) by (unfold E; apply fexp_eq).
  assert (P : (0 < 2 ^ k)%Z) by (apply Z.pow_pos_nonneg; lia).
  destruct (Z.eq_dec m' 0) as [Z0|NZ].
  - subst m'.
    assert (Hdk : (d <= k)%Z).
    { destruct (Z_lt_le_dec k d) as [L|]; [|assumption].
      assert (2 ^ k <= 2 ^ (d - 1))%Z by (apply Z.pow_le_mono_r; lia). lia. }
    assert (E1 : E = (-1074)%Z) by lia.
    split; [|split; [lia|intros _; exact E1]].
    destruct (Z.eq_dec m'' 0) as [->|]; [now left|right; left].
    assert (m'' = 1%Z) by lia. subst m''. split; [lia|].
    rewrite fexp_eq. cbn [Zdigits2 digits2_pos]. lia.
  - assert (Hp : (0 < m')%Z) by lia.
    destruct (@digits_shift mx m' k d Hk Hp (conj D1 D2) Hs) as [Hkd [B1 B2]].
    assert (Dm : Zdigits2 m' = (d - k)%Z).
    { apply Zdigits2_unique; [|exact Hp]. replace (d - k - 1)%Z with (d - k - 1)%Z by lia.
      split; [|exact B2]. replace (d - k - 1)%Z with (d - k - 1)%Z in B1 by lia.
      exact B1. }
    assert (Hle : (d - k <= 53)%Z) by lia.
    split; [|split; [intros _; lia|lia]].
    destruct (Z.eq_dec m'' m') as [->|Hne].
    { right; left. split; [exact Hp|]. rewrite Dm, fexp_eq. lia. }
    assert (Hm'' : m'' = (m' + 1)%Z) by lia.
    destruct (Z_lt_le_dec (m' + 1) (2 ^ (d - k))) as [Hlt|Hge].
    + right; left. split; [lia|].
      assert (Zdigits2 m'' = (d - k)%Z).
      { apply Zdigits2_unique; lia. }
      rewrite H, fexp_eq. lia.
    + assert (Hpow : m'' = (2 ^ (d - k))%Z) by lia.
      destruct (Z.eq_dec (d - k) 53) as [E53|N53].
      * right; right. rewrite <- E53. split; [exact Hpow|lia].
      * right; left. split; [lia|].
        assert (Zdigits2 m'' = (d - k + 1)%Z).
        { apply Zdigits2_unique; [|lia]. rewrite Hpow.
          replace (d - k + 1 - 1)%Z with (d - k)%Z by lia.
          split; [lia|]. apply Z.pow_lt_mono_r; lia. }
        rewrite H, fexp_eq. lia.
Qed.

(** The second shift of [binary_round_aux] keeps the value. *)
Lemma second_shift m E :
  (0 <= m)%Z ->
  (fexp prec emax (Zdigits2 m + E) <= E \/ (m = 2 ^ 53 /\ -1074 <= E))%Z ->
  exists mz ez,
    shr_fexp prec emax m E loc_Exact
    = ({| shr_m := mz; shr_r := false; shr_s := false |}, ez)
    /\ (scaled mz ez == scaled m E)%Q
    /\ (0 <= mz)%Z /\ (m = 0%Z -> mz = 0%Z)
    /\ ((0 < m /\ fexp prec emax (Zdigits2 m + E) = E
         \/ (m = 2 ^ 53 /\ -1074 <= E))%Z -> canonZ mz ez).
Proof.
  intros Hm [H|[-> HE]].
  - exists m, E. unfold shr_fexp, shr. cbn [shr_record_of_loc].
    destruct (fexp prec emax (Zdigits2 m + E) - E)%Z eqn:Hn; try lia;
      (split; [reflexivity|]); (split; [reflexivity|]);
      (split; [exact Hm|]); (split; [auto|]);
      (intros [[Hp Hc]|[-> HE]]; [split; assumption|split; [lia|]];
       rewrite fexp_eq in *; change (Zdigits2 (2 ^ 53)) with 54%Z in *; lia).
  - exists (2 ^ 52)%Z, (E + 1)%Z. unfold shr_fexp.
    replace (fexp prec emax (Zdigits2 (2 ^ 53) + E) - E)%Z with 1%Z
      by (rewrite fexp_eq; change (Zdigits2 (2 ^ 53)) with 54%Z; lia).
    split; [reflexivity|].
    split; [rewrite <- scaled_shift by lia; reflexivity|].
    split; [lia|]. split; [intros H; discriminate H|].
    intros _. split; [reflexivity|]. rewrite fexp_eq.
    change (Zdigits2 (2 ^ 52)) with 53%Z. lia.
Qed.

Lemma shr_fexp_id m E :
  (fexp prec emax (Zdigits2 m + E) <= E)%Z ->
  shr_fexp prec emax m E loc_Exact
  = ({| shr_m := m; shr_r := false; shr_s := false |}, E).
Proof.
  intros H. unfold shr_fexp, shr. cbn [shr_record_of_loc].
  destruct (fexp prec emax (Zdigits2 m + E) - E)%Z eqn:Hn; try lia; reflexivity.
Qed.

Lemma SF_of_match s mz ez :
  match mz with
  | Z0 => S754_zero s
  | Zpos m => if (ez <=? emax - prec)%Z then S754_finite s m ez
              else S754_infinity s
  | Zneg _ => S754_nan
  end = SF_of s mz ez.
Proof. reflexivity. Qed.

(** [binary_round_aux] rounds: what it returns is a number of the format
    next to the value it is given, below or above. *)
Theorem binary_round_aux_spec s mx ex lx v :
  (0 < mx)%Z -> inbetween v mx lx ->
  (lx = loc_Exact \/ ex <= fexp prec emax (Zdigits2 mx + ex))%Z ->
  exists mz ez,
    binary_round_aux prec emax s mx ex lx = SF_of s mz ez
    /\ rounded (v * pow2 ex) mz ez
    /\ ((ex <= fexp prec emax (Zdigits2 mx + ex))%Z ->
        mz = 0%Z \/ canonZ mz ez).
Proof.
  intros Hmx Hv Hal.
  destruct (Z_le_gt_dec ex (fexp prec emax (Zdigits2 mx + ex))) as [Hle|Hgt].
  - (* the mantissa has digits enough *)
    unfold binary_round_aux.
    pose proof (@shr_fexp_spec mx ex lx v ltac:(lia) Hv) as S1.
    destruct (shr_fexp prec emax mx ex lx) as [mrs' e'].
    cbn [fst snd] in S1. destruct S1 as (A & B & C & D).
    set (E := fexp prec emax (Zdigits2 mx + ex)) in *.
    replace (Z.max 0 (E - ex)) with (E - ex)%Z in * by lia.
    assert (He : e' = E) by lia. clear A. subst e'.
    set (m' := shr_m mrs') in *. set (l' := loc_of_shr_record mrs') in *.
    destruct (round_nearest_even_bounds m' l') as [R1 R2].
    set (m'' := round_nearest_even m' l') in *.
    destruct (@round_digits mx ex m' m'' Hmx ltac:(fold E; lia) B D R1)
      as (Dg & Dg' & Dz). fold E in Dg, Dg', Dz.
    assert (HE : (-1074 <= E)%Z) by (unfold E; rewrite fexp_eq; lia).
    destruct (@second_shift m'' E ltac:(lia)) as (mz & ez & S2 & Vz & Pz & Zz & Cz).
    { destruct Dg as [->|[[_ ->]|H]]; [left|left; lia|right; exact H].
      rewrite fexp_eq. cbn [Zdigits2]. lia. }
    rewrite S2. cbn [shr_m]. rewrite SF_of_match.
    exists mz, ez. split; [reflexivity|].
    (* the value, between m' and m' + 1 at the exponent E *)
    set (w := (v * pow2 (- (E - ex)))%Q) in *.
    assert (EV : (v * pow2 ex == w * pow2 E)%Q).
    { unfold w. rewrite <- Qmult_assoc, <- pow2_add.
      replace (- (E - ex) + E)%Z with ex by lia. reflexivity. }
    destruct (inbetween_bounds _ _ _ C) as [W1 W2].
    assert (PE : (0 < pow2 E)%Q) by apply pow2_pos.
    assert (V1 : (scaled m' E <= v * pow2 ex)%Q).
    { rewrite EV. unfold scaled. apply Qmult_le_compat_r; [exact W1|lra]. }
    assert (V2 : (v * pow2 ex < scaled (m' + 1) E)%Q).
    { rewrite EV. unfold scaled. rewrite inject_Z_plus.
      apply Qmult_lt_compat_r; [exact PE|exact W2]. }
    destruct (inbetween_bounds _ _ _ Hv) as [X1 X2].
    assert (Pex : (0 < pow2 ex)%Q) by apply pow2_pos.
    destruct (scaled_mag ex Hmx) as [M1 M2].
    assert (V3 : (scaled mx ex <= v * pow2 ex)%Q).
    { unfold scaled. apply Qmult_le_compat_r; [exact X1|lra]. }
    assert (V4 : (v * pow2 ex < pow2 (Zdigits2 mx + ex))%Q).
    { destruct (Zdigits2_bounds Hmx) as [_ D2].
      rewrite <- scaled_pow2 by (pose proof (Zdigits2_pos Hmx); lia).
      unfold scaled. apply Qmult_lt_compat_r; [exact Pex|].
      eapply Qlt_le_trans; [exact X2|].
      change 1%Q with (inject_Z 1). rewrite <- inject_Z_plus, <- Zle_Qle. lia. }
    split; [split; [exact Pz|split]|].
    + (* nothing of the format between the result and the value, below *)
      intros m0 e0 C0 H0. rewrite Vz.
      apply Qle_trans with (scaled m' E); [|apply scaled_le; lia].
      destruct (canonZ_digits C0) as [Cd Ce]. destruct C0 as [P0 F0].
      destruct (scaled_mag e0 P0) as [N1 N2].
      assert (L : (pow2 (Zdigits2 m0 + e0 - 1) < pow2 (Zdigits2 mx + ex))%Q) by lra.
      apply pow2_lt_inv in L.
      assert (Le : (e0 <= E)%Z) by (unfold E; rewrite fexp_eq in *; lia).
      assert (Lt : (scaled m0 e0 < scaled (m' + 1) E)%Q) by lra.
      apply (scaled_lt_l _ _ Le) in Lt. apply (scaled_le_l _ _ Le).
      destruct (Z.eq_dec e0 E) as [->|Hne].
      * rewrite Z.sub_diag in *. cbn in *. lia.
      * assert (Hm' : (0 < m')%Z).
        { destruct (Z.eq_dec m' 0) as [Z0|]; [|lia]. specialize (Dz Z0). lia. }
        destruct (Dg' Hm') as [Dg1 Dg2].
        assert (D53 : Zdigits2 m' = 53%Z) by (unfold E in *; rewrite fexp_eq in *; lia).
        destruct (Zdigits2_bounds Hm') as [Bm _]. rewrite D53 in Bm.
        destruct (Zdigits2_bounds P0) as [_ B0].
        assert (B0' : (m0 < 2 ^ 53)%Z).
        { eapply Z.lt_le_trans; [exact B0|]. apply Z.pow_le_mono_r; lia. }
        assert (P2 : (2 ^ 1 <= 2 ^ (E - e0))%Z) by (apply Z.pow_le_mono_r; lia).
        change (2 ^ 1)%Z with 2%Z in P2. change (2 ^ (53 - 1))%Z with (2 ^ 52)%Z in Bm.
        assert (2 ^ 53 = 2 ^ 52 * 2)%Z by reflexivity. nia.
    + (* and above *)
      intros m0 e0 C0 H0. rewrite Vz.
      destruct l' as [|c] eqn:El.
      * rewrite (R2 eq_refl). cbn in C.
        assert (EQ : (v * pow2 ex == scaled m' E)%Q).
        { rewrite EV. unfold scaled. now rewrite C. }
        now rewrite <- EQ.
      * apply inbetween_inexact in C.
        assert (V5 : (scaled m' E < v * pow2 ex)%Q).
        { rewrite EV. unfold scaled. apply Qmult_lt_compat_r; [exact PE|exact C]. }
        destruct C0 as [P0 F0]. destruct (scaled_mag e0 P0) as [N1 N2].
        assert (L : (pow2 (Zdigits2 mx + ex - 1) < pow2 (Zdigits2 m0 + e0))%Q) by lra.
        apply pow2_lt_inv in L.
        assert (Le : (E <= e0)%Z) by (unfold E; rewrite fexp_eq in *; lia).
        assert (Lt : (scaled m' E < scaled m0 e0)%Q) by lra.
        apply (scaled_lt_l _ _ Le) in Lt. apply (scaled_le_l _ _ Le). lia.
    + intros _. destruct Dg as [Z0|[H|H]].
      * left. now apply Zz.
      * right. apply Cz. now left.
      * right. apply Cz. now right.
  - (* an exact value that already has more digits than the format *)
    destruct Hal as [->|Hal]; [|lia].
    unfold binary_round_aux.
    rewrite shr_fexp_id by lia. cbn [shr_m loc_of_shr_record round_nearest_even].
    rewrite shr_fexp_id by lia. cbn [shr_m]. rewrite SF_of_match.
    exists mx, ex. split; [reflexivity|].
    cbn in Hv.
    assert (EQ : (v * pow2 ex == scaled mx ex)%Q) by (unfold scaled; now rewrite Hv).
    split; [split; [lia|split]|lia]; intros m0 e0 _ H0; now rewrite <- EQ.
Qed.

(** A value of the format that is rounded is returned as it is. *)
Lemma rounded_exact V mz ez m0 e0 :
  rounded V mz ez -> (mz = 0%Z \/ canonZ mz ez) ->
  canonZ m0 e0 -> (V == scaled m0 e0)%Q ->
  mz = m0 /\ ez = e0.
Proof.
  intros (Hp & Ha & Hb) Hc C0 EV.
  assert (A : (scaled m0 e0 <= scaled mz ez)%Q)
    by (apply Ha; [exact C0|rewrite EV; apply Qle_refl]).
  assert (B : (scaled mz ez <= scaled m0 e0)%Q)
    by (apply Hb; [exact C0|rewrite EV; apply Qle_refl]).
  destruct Hc as [->|Hc].
  - exfalso. destruct C0 as [P0 _].
    assert (0 < scaled m0 e0)%Q.
    { unfold scaled. apply Qmult_lt_0_compat; [|apply pow2_pos].
      change 0%Q with (inject_Z 0). now rewrite <- Zlt_Qlt. }
    unfold scaled in A at 2. change (inject_Z 0) with 0%Q in A.
    rewrite Qmult_0_l in A. lra.
  - apply canonZ_unique; [exact Hc|exact C0|]. now apply Qle_antisym.
Qed.

Lemma scaled_pos m e : (0 < m)%Z -> (0 < scaled m e)%Q.
Proof.
  intros H. unfold scaled. apply Qmult_lt_0_compat; [|apply pow2_pos].
  change 0%Q with (inject_Z 0). now rewrite <- Zlt_Qlt.
Qed.

Lemma scaled_0 e : (scaled 0 e == 0)%Q.
Proof. unfold scaled. change (inject_Z 0) with 0%Q. ring. Qed.

(** ** Aligning a mantissa to the left *)

Lemma iter_xO mx d : Zpos (Pos.iter xO mx d) = (Zpos mx * 2 ^ Zpos d)%Z.
Proof.
  induction d as [|d IH] using Pos.peano_ind.
  - cbn. lia.
  - rewrite Pos.iter_succ, Pos2Z.inj_succ, Z.pow_succ_r by lia.
    change (Zpos (Pos.iter xO mx d)~0) with (2 * Zpos (Pos.iter xO mx d))%Z.
    rewrite IH. ring.
Qed.

Lemma shl_align_spec mx ex ex' :
  let r := shl_align mx ex ex' in
  let k := Z.max 0 (ex - ex') in
  Zpos (fst r) = (Zpos mx * 2 ^ k)%Z /\ snd r = (ex - k)%Z.
Proof.
  unfold shl_align. destruct (ex' - ex)%Z as [|p|p] eqn:E; cbn [fst snd].
  - replace (Z.max 0 (ex - ex')) with 0%Z by lia. cbn. lia.
  - replace (Z.max 0 (ex - ex')) with 0%Z by lia. cbn. lia.
  - replace (Z.max 0 (ex - ex')) with (Zpos p) by lia.
    split; [apply iter_xO|lia].
Qed.

Lemma Zdigits2_shift m k :
  (0 < m)%Z -> (0 <= k)%Z -> Zdigits2 (m * 2 ^ k) = (Zdigits2 m + k)%Z.
Proof.
  intros Hm Hk. destruct (Zdigits2_bounds Hm) as [B1 B2].
  pose proof (Zdigits2_pos Hm).
  assert (P : (0 < 2 ^ k)%Z) by (apply Z.pow_pos_nonneg; lia).
  apply Zdigits2_unique; [|nia].
  replace (Zdigits2 m + k - 1)%Z with ((Zdigits2 m - 1) + k)%Z by lia.
  rewrite !Z.pow_add_r by lia. nia.
Qed.

(** [binary_round] rounds [mx * 2 ^ ex] to the format. *)
Theorem binary_round_spec s mx ex :
  exists mz ez,
    binary_round prec emax s mx ex = SF_of s mz ez
    /\ rounded (scaled (Zpos mx) ex) mz ez
    /\ (mz = 0%Z \/ canonZ mz ez).
Proof.
  unfold binary_round.
  pose proof (shl_align_spec mx ex (fexp prec emax (Zpos (digits2_pos mx) + ex))) as S.
  destruct (shl_align mx ex (fexp prec emax (Zpos (digits2_pos mx) + ex)))
    as [mz0 ez0]. cbn [fst snd] in S. destruct S as [S1 S2].
  set (E := fexp prec emax (Zpos (digits2_pos mx) + ex)) in *.
  set (k := Z.max 0 (ex - E)) in *.
  assert (Hk : (0 <= k)%Z) by lia.
  assert (Dz : Zdigits2 (Zpos mz0) = (Zdigits2 (Zpos mx) + k)%Z).
  { rewrite S1. apply Zdigits2_shift; lia. }
  assert (Al : (ez0 <= fexp prec emax (Zdigits2 (Zpos mz0) + ez0))%Z).
  { rewrite Dz, S2. replace (Zdigits2 (Zpos mx) + k + (ex - k))%Z
      with (Zpos (digits2_pos mx) + ex)%Z by (cbn [Zdigits2]; lia).
    fold E. lia. }
  destruct (@binary_round_aux_spec s (Zpos mz0) ez0 loc_Exact (inject_Z (Zpos mz0)))
    as (mz & ez & R1 & R2 & R3); [lia|cbn; reflexivity|right; exact Al|].
  exists mz, ez. split; [exact R1|]. split; [|now apply R3].
  assert (EV : (inject_Z (Zpos mz0) * pow2 ez0 == scaled (Zpos mx) ex)%Q).
  { fold (scaled (Zpos mz0) ez0). rewrite S1, S2, scaled_shift by exact Hk.
    replace (ex - k + k)%Z with ex by lia. reflexivity. }
  destruct R2 as (P & A & B). split; [exact P|].
  split; intros m0 e0 C0 H0; [apply A|apply B]; try exact C0; now rewrite EV.
Qed.

Lemma SF_of_valid s mz ez :
  (mz = 0%Z \/ canonZ mz ez) -> valid_binary (SF_of s mz ez) = true.
Proof.
  intros [->|[P C]]; [reflexivity|].
  destruct mz as [|m|m]; try lia. unfold SF_of.
  destruct (ez <=? emax - prec)%Z eqn:L; [|reflexivity].
  cbn [SpecFloat.valid_binary]. unfold bounded, canonical_mantissa.
  cbn [Zdigits2] in C. rewrite C, Z.eqb_refl, L. reflexivity.
Qed.

Lemma binary_round_valid s mx ex :
  valid_binary (binary_round prec emax s mx ex) = true.
Proof.
  destruct (binary_round_spec s mx ex) as (mz & ez & -> & _ & C).
  now apply SF_of_valid.
Qed.

Lemma binary_normalize_valid m e szero :
  valid_binary (binary_normalize prec emax m e szero) = true.
Proof.
  destruct m; cbn [binary_normalize]; [reflexivity| |]; apply binary_round_valid.
Qed.

(** A mantissa that fits the format, at an exponent of the format, has a
    canonical form. *)
Lemma canonZ_normalize m e :
  (0 < m)%Z -> (Zdigits2 m <= 53)%Z -> (-1074 <= e)%Z ->
  exists m0 e0, canonZ m0 e0 /\ (e0 <= e)%Z /\ (scaled m0 e0 == scaled m e)%Q.
Proof.
  intros Hm Hd He.
  set (e0 := fexp prec emax (Zdigits2 m + e)).
  assert (L : (e0 <= e)%Z) by (unfold e0; rewrite fexp_eq; lia).
  exists (m * 2 ^ (e - e0))%Z, e0.
  assert (P : (0 < 2 ^ (e - e0))%Z) by (apply Z.pow_pos_nonneg; lia).
  split; [split; [nia|]|split; [exact L|]].
  - rewrite Zdigits2_shift by lia.
    replace (Zdigits2 m + (e - e0) + e0)%Z with (Zdigits2 m + e)%Z by lia.
    reflexivity.
  - rewrite scaled_shift by lia. replace (e0 + (e - e0))%Z with e by lia.
    reflexivity.
Qed.

(** ** Comparisons *)

Lemma valid_canonZ s m e :
  valid_binary (S754_finite s m e) = true -> canonZ (Zpos m) e /\ (e <= 971)%Z.
Proof.
  cbn [SpecFloat.valid_binary]. unfold bounded. intros H.
  apply andb_true_iff in H as [H1 H2]. apply canonical_canonZ in H1.
  apply Z.leb_le in H2. split; [exact H1|exact H2].
Qed.

Lemma canonZ_exp_lt m1 e1 m2 e2 :
  canonZ m1 e1 -> canonZ m2 e2 -> (e1 < e2)%Z ->
  (scaled m1 e1 < scaled m2 e2)%Q.
Proof.
  intros C1 C2 H. destruct (Qlt_le_dec (scaled m1 e1) (scaled m2 e2)) as [|L];
    [assumption|].
  pose proof (@canonZ_exp_le m2 e2 m1 e1 C2 C1 L). lia.
Qed.

Lemma Qcompare_Lt a b : (a < b)%Q -> (a ?= b)%Q = Lt.
Proof. apply Qlt_alt. Qed.

Lemma Qcompare_Gt a b : (b < a)%Q -> (a ?= b)%Q = Gt.
Proof. apply Qgt_alt. Qed.

Lemma Qcompare_Eq a b : (a == b)%Q -> (a ?= b)%Q = Eq.
Proof. apply Qeq_alt. Qed.

Lemma compare_canon m1 m2 e1 e2 :
  canonZ (Zpos m1) e1 -> canonZ (Zpos m2) e2 ->
  match (e1 ?= e2)%Z with
  | Lt => Lt
  | Gt => Gt
  | Eq => Pos.compare_cont Eq m1 m2
  end = (scaled (Zpos m1) e1 ?= scaled (Zpos m2) e2)%Q.
Proof.
  intros C1 C2. destruct (Z.compare_spec e1 e2) as [->|L|G].
  - change (Pos.compare_cont Eq m1 m2) with (Zpos m1 ?= Zpos m2)%Z.
    destruct (Z.compare_spec (Zpos m1) (Zpos m2)) as [E|L|G]; symmetry.
    + apply Qcompare_Eq. now rewrite E.
    + apply Qcompare_Lt. now apply scaled_lt.
    + apply Qcompare_Gt. now apply scaled_lt.
  - symmetry. apply Qcompare_Lt. now apply canonZ_exp_lt.
  - symmetry. apply Qcompare_Gt. now apply canonZ_exp_lt.
Qed.

Lemma Qcompare_opp a b : (- a ?= - b)%Q = CompOpp (a ?= b)%Q.
Proof.
  destruct (Qcompare_spec a b) as [E|L|G]; cbn [CompOpp].
  - apply Qcompare_Eq. now rewrite E.
  - apply Qcompare_Gt. lra.
  - apply Qcompare_Lt. lra.
Qed.

(** On finite numbers [SFcompare] is the comparison of the values. *)
Theorem SFcompare_spec x y :
  valid_binary x = true -> valid_binary y = true ->
  SFfinite x = true -> SFfinite y = true ->
  SFcompare x y = Some (SF2Q x ?= SF2Q y)%Q.
Proof.
  intros Vx Vy Fx Fy.
  destruct x as [sx|sx| |sx mx ex]; try discriminate;
    destruct y as [sy|sy| |sy my ey]; try discriminate; cbn [SFcompare SF2Q].
  - reflexivity.
  - destruct (@valid_canonZ sy my ey Vy) as [[Py _] _].
    pose proof (scaled_pos ey Py). f_equal. symmetry.
    destruct sy; [apply Qcompare_Gt|apply Qcompare_Lt]; lra.
  - destruct (@valid_canonZ sx mx ex Vx) as [[Px _] _].
    pose proof (scaled_pos ex Px). f_equal. symmetry.
    destruct sx; [apply Qcompare_Lt|apply Qcompare_Gt]; lra.
  - destruct (@valid_canonZ sx mx ex Vx) as [Cx _].
    destruct (@valid_canonZ sy my ey Vy) as [Cy _].
    pose proof (scaled_pos ex (proj1 Cx)). pose proof (scaled_pos ey (proj1 Cy)).
    f_equal. destruct sx, sy.
    + rewrite Qcompare_opp, <- (compare_canon Cx Cy).
      now destruct (ex ?= ey)%Z.
    + symmetry. apply Qcompare_Lt. lra.
    + symmetry. apply Qcompare_Gt. lra.
    + now apply compare_canon.
Qed.

Lemma SFleb_spec x y :
  valid_binary x = true -> valid_binary y = true ->
  SFfinite x = true -> SFfinite y = true ->
  SFleb x y = true <-> (SF2Q x <= SF2Q y)%Q.
Proof.
  intros Vx Vy Fx Fy. unfold SFleb. rewrite (@SFcompare_spec x y Vx Vy Fx Fy).
  destruct (Qcompare_spec (SF2Q x) (SF2Q y)) as [E|L|G]; split; intros H;
    try reflexivity; try discriminate; try lra.
Qed.


Lemma SFeqb_spec x y :
  valid_binary x = true -> valid_binary y = true ->
  SFfinite x = true -> SFfinite y = true ->
  SFeqb x y = true <-> (SF2Q x == SF2Q y)%Q.
Proof.
  intros Vx Vy Fx Fy. unfold SFeqb. rewrite (@SFcompare_spec x y Vx Vy Fx Fy).
  destruct (Qcompare_spec (SF2Q x) (SF2Q y)) as [E|L|G]; split; intros H;
    try reflexivity; try discriminate; try lra.
Qed.

(** ** Signs *)

Lemma isfinite_SFfinite x : isfinite x = SFfinite (Prim2SF x).
Proof. unfold isfinite. now destruct (Prim2SF x). Qed.

Lemma binary_round_aux_sign s m e l :
  match binary_round_aux prec emax s m e l with
  | S754_nan => True
  | S754_zero s' => s' = s
  | S754_finite s' _ _ => s' = s
  | S754_infinity s' => s' = s
  end.
Proof.
  unfold binary_round_aux. destruct (shr_fexp prec emax m e l) as [mrs' e'].
  destruct (shr_fexp prec emax _ e' loc_Exact) as [mrs'' e''].
  destruct (shr_m mrs''); [reflexivity| |exact I].
  now destruct (e'' <=? emax - prec)%Z.
Qed.

Lemma SFplus_sign_round_aux m e l :
  SFplus_sign (binary_round_aux prec emax false m e l) = true.
Proof.
  pose proof (binary_round_aux_sign false m e l) as H.
  destruct (binary_round_aux prec emax false m e l); cbn; try rewrite H; reflexivity.
Qed.

Lemma SFplus_sign_nonneg x : SFplus_sign x = true -> SFnonneg x = true.
Proof. destruct x; cbn; auto. Qed.

Lemma SFplus_sign_normalize z :
  (0 <= z)%Z -> SFplus_sign (binary_normalize prec emax z 0 false) = true.
Proof.
  destruct z as [|p|p]; try lia; intros _; cbn [binary_normalize].
  - reflexivity.
  - unfold binary_round.
    destruct (shl_align p 0 _) as [mz ez]. apply SFplus_sign_round_aux.
Qed.

Lemma SFplus_sign_div x y :
  SFplus_sign x = true -> SFplus_sign y = true ->
  SFplus_sign (SF64div x y) = true.
Proof.
  destruct x as [sx|sx| |sx mx ex], y as [sy|sy| |sy my ey]; cbn;
    try (intros -> ->); try reflexivity; try (intros; reflexivity);
    try (destruct sx, sy; try discriminate; reflexivity).
  destruct sx, sy; try discriminate. intros _ _.
  unfold SF64div, SFdiv.
  destruct (SFdiv_core_binary prec emax (Zpos mx) ex (Zpos my) ey) as [[mz ez] lz].
  apply SFplus_sign_round_aux.
Qed.

Lemma SFnonneg_mul x y :
  SFnonneg x = true -> SFplus_sign y = true -> SFnonneg (SF64mul x y) = true.
Proof.
  destruct x as [sx|sx| |sx mx ex], y as [sy|sy| |sy my ey]; cbn;
    try reflexivity; try (intros; reflexivity);
    try (destruct sx, sy; try discriminate; reflexivity).
  destruct sx, sy; try discriminate. intros _ _.
  apply SFplus_sign_nonneg. apply SFplus_sign_round_aux.
Qed.

Lemma SFnonneg_add x y :
  SFnonneg x = true -> SFnonneg y = true -> SFnonneg (SF64add x y) = true.
Proof.
  destruct x as [sx|sx| |sx mx ex], y as [sy|sy| |sy my ey]; cbn;
    try reflexivity; try (intros; reflexivity);
    try (destruct sx, sy; try discriminate; reflexivity);
    try (destruct sx; try discriminate; reflexivity);
    try (destruct sy; try discriminate; reflexivity).
  destruct sx, sy; try discriminate. intros _ _.
  unfold SF64add, SFadd. cbn [cond_Zopp Z.add binary_normalize].
  apply SFplus_sign_nonneg. unfold binary_round.
  destruct (shl_align _ _ _) as [mz ez]. apply SFplus_sign_round_aux.
Qed.

(** ** Comparisons of floats *)

Lemma leb_Q x y :
  isfinite x = true -> isfinite y = true ->
  (x <=? y)%float = true <-> (to_Q x <= to_Q y)%Q.
Proof.
  intros Fx Fy. rewrite leb_spec. rewrite isfinite_SFfinite in Fx, Fy.
  apply SFleb_spec; try assumption; apply Prim2SF_valid.
Qed.


Lemma eqb_Q x y :
  isfinite x = true -> isfinite y = true ->
  (x =? y)%float = true <-> (to_Q x == to_Q y)%Q.
Proof.
  intros Fx Fy. rewrite eqb_spec. rewrite isfinite_SFfinite in Fx, Fy.
  apply SFeqb_spec; try assumption; apply Prim2SF_valid.
Qed.

Lemma fle_refl a : fle a a.
Proof.
  intros H. split; [exact H|]. apply leb_Q; [exact H|exact H|apply Qle_refl].
Qed.

Lemma fle_trans a b c : fle a b -> fle b c -> fle a c.
Proof.
  intros Hab Hbc Hc. destruct (Hbc Hc) as [Fb Lbc].
  destruct (Hab Fb) as [Fa Lab]. split; [exact Fa|].
  apply leb_Q in Lab, Lbc; try assumption.
  apply leb_Q; try assumption. now apply Qle_trans with (to_Q b).
Qed.

(** ** Addition of a number that is not negative *)

Lemma SFadd_finite_pos mx ex my ey :
  SF64add (S754_finite false mx ex) (S754_finite false my ey)
  = binary_round prec emax false
      (fst (shl_align mx ex (Z.min ex ey)) + fst (shl_align my ey (Z.min ex ey)))
      (Z.min ex ey).
Proof. reflexivity. Qed.

Lemma shl_align_value mx ex ez :
  (ez <= ex)%Z ->
  (scaled (Zpos (fst (shl_align mx ex ez))) ez == scaled (Zpos mx) ex)%Q.
Proof.
  intros H. destruct (shl_align_spec mx ex ez) as [S1 _]. rewrite S1.
  replace (Z.max 0 (ex - ez)) with (ex - ez)%Z by lia.
  rewrite scaled_shift by lia. replace (ez + (ex - ez))%Z with ex by lia.
  reflexivity.
Qed.

Lemma scaled_add a b e : (scaled (a + b) e == scaled a e + scaled b e)%Q.
Proof. unfold scaled. rewrite inject_Z_plus. ring. Qed.

(** Adding a number that is not negative does not go below: rounding to
    nearest is monotone and the first operand is a number of the format. *)
Theorem SFadd_le x y :
  valid_binary x = true -> valid_binary y = true ->
  SFnonneg x = true -> SFnonneg y = true ->
  SFfinite (SF64add x y) = true ->
  valid_binary (SF64add x y) = true ->
  SFfinite x = true /\ SFleb x (SF64add x y) = true.
Proof.
  intros Vx Vy Nx Ny Fr Vr.
  destruct x as [sx|sx| |sx mx ex]; destruct y as [sy|sy| |sy my ey];
    try (exfalso; revert Nx Ny Fr; clear; cbn; try destruct sx; try destruct sy;
         discriminate).
  - split; [reflexivity|]. cbn in *. now destruct sx, sy.
  - split; [reflexivity|]. destruct sy; [discriminate|]. reflexivity.
  - split; [reflexivity|]. destruct sx; [discriminate|].
    apply SFleb_spec; try assumption; try reflexivity. apply Qle_refl.
  - split; [reflexivity|]. destruct sx, sy; try discriminate.
    rewrite SFadd_finite_pos in *.
    set (ez := Z.min ex ey) in *.
    set (p := (fst (shl_align mx ex ez) + fst (shl_align my ey ez))%positive) in *.
    destruct (binary_round_spec false p ez) as (mz & ezz & R & (Pz & A & B) & C).
    destruct (@valid_canonZ false mx ex Vx) as [Cx _].
    assert (L : (scaled (Zpos mx) ex <= scaled mz ezz)%Q).
    { apply A; [exact Cx|]. unfold p. rewrite Pos2Z.inj_add, scaled_add.
      rewrite (@shl_align_value mx ex ez) by (unfold ez; lia).
      pose proof (scaled_pos ez (Pos2Z.is_pos (fst (shl_align my ey ez)))).
      lra. }
    apply SFleb_spec; try assumption; try reflexivity.
    rewrite R in *. destruct mz as [|m|m]; try lia.
    + rewrite scaled_0 in L. pose proof (scaled_pos ex (Pos2Z.is_pos mx)). lra.
    + unfold SF_of in *. destruct (ezz <=? emax - prec)%Z; [|discriminate].
      exact L.
Qed.

Theorem fle_add c d :
  fnonneg c = true -> fnonneg d = true -> fle c (c + d)%float.
Proof.
  unfold fnonneg, fle. intros Nc Nd Fr.
  rewrite !isfinite_SFfinite in *. rewrite leb_spec. rewrite add_spec in *.
  apply SFadd_le; try assumption; try apply Prim2SF_valid.
  rewrite <- add_spec. apply Prim2SF_valid.
Qed.

Lemma fnonneg_add c d :
  fnonneg c = true -> fnonneg d = true -> fnonneg (c + d)%float = true.
Proof. unfold fnonneg. rewrite add_spec. apply SFnonneg_add. Qed.

(** ** The times of generate_srt on binary64 *)

Lemma of_Z_Prim2SF z :
  Prim2SF (Binary64.of_Z z) = binary_normalize prec emax z 0 false.
Proof.
  unfold Binary64.of_Z. apply Prim2SF_SF2Prim, binary_normalize_valid.
Qed.

Lemma int_truediv_plus_sign a b :
  (0 <= a)%Z -> (0 <= b)%Z ->
  SFplus_sign (Prim2SF (int_truediv a b)) = true.
Proof.
  intros Ha Hb. cbn [int_truediv binary64_float]. rewrite div_spec.
  apply SFplus_sign_div; rewrite of_Z_Prim2SF; now apply SFplus_sign_normalize.
Qed.

Lemma leb_zero_fnonneg d : (0 <=? d)%float = true -> fnonneg d = true.
Proof.
  rewrite leb_spec. unfold fnonneg.
  change (Prim2SF 0) with (S754_zero false).
  destruct (Prim2SF d) as [s|s| |s m e]; cbn; try reflexivity; try discriminate;
    destruct s; try reflexivity; discriminate.
Qed.

Lemma seg_duration_fnonneg d total seg :
  (0 <=? d)%float = true -> fnonneg (seg_duration d total seg) = true.
Proof.
  intros H. unfold seg_duration, fnonneg. cbn [fmul binary64_float].
  rewrite mul_spec. apply SFnonneg_mul.
  - now apply leb_zero_fnonneg.
  - apply int_truediv_plus_sign; [apply len_nonneg|lia].
Qed.

Lemma fnonneg_of_int_0 : fnonneg (of_int 0) = true.
Proof. reflexivity. Qed.

Lemma ordered64_bounds (cs : list (cue float)) : forall lo hi,
  ordered64 lo cs hi ->
  fle lo hi /\ Forall (fun c => fle lo (cue_start c)) cs.
Proof.
  induction cs as [|c cs IH]; intros lo hi H.
  - split; [exact H|constructor].
  - destruct H as (H1 & H2 & H3). destruct (IH _ _ H3) as [H4 H5].
    assert (L : fle lo (cue_end c)) by (eapply fle_trans; eauto).
    split; [eapply fle_trans; eauto|]. constructor; [exact H1|].
    eapply Forall_impl; [|exact H5]. cbv beta. intros a Ha.
    eapply fle_trans; eauto.
Qed.

Lemma ordered64_app (a b : list (cue float)) : forall lo mid hi,
  ordered64 lo a mid -> ordered64 mid b hi -> ordered64 lo (a ++ b) hi.
Proof.
  induction a as [|c a IH]; intros lo mid hi Ha Hb.
  - cbn [app ordered64] in *. destruct b as [|c b]; cbn [ordered64] in *.
    + eapply fle_trans; eauto.
    + destruct Hb as (H1 & H2 & H3).
      split; [eapply fle_trans; eauto|split; assumption].
  - destruct Ha as (H1 & H2 & H3). cbn [app ordered64].
    split; [exact H1|split; [exact H2|eapply IH; eauto]].
Qed.

Lemma ordered64_nth (cs : list (cue float)) : forall lo hi j k c1 c2,
  ordered64 lo cs hi -> (j < k)%nat ->
  nth_error cs j = Some c1 -> nth_error cs k = Some c2 ->
  fle (cue_start c1) (cue_end c1) /\ fle (cue_end c1) (cue_start c2).
Proof.
  induction cs as [|c cs IH]; intros lo hi j k c1 c2 H Hjk H1 H2.
  - destruct j; discriminate.
  - destruct H as (Ha & Hb & Hc). destruct k as [|k]; [lia|].
    cbn [nth_error] in H2. destruct j as [|j].
    + cbn [nth_error] in H1. injection H1 as <-. split; [exact Hb|].
      destruct (ordered64_bounds _ _ _ Hc) as [_ Hf].
      rewrite Forall_forall in Hf. apply Hf.
      eapply nth_error_In; eauto.
    + cbn [nth_error] in H1.
      apply (IH _ _ j k c1 c2 Hc); [lia|exact H1|exact H2].
Qed.


Lemma segment_cues_ordered64 (d : float) total segs :
  (0 <=? d)%float = true -> forall ck : clock float,
  fnonneg (snd ck) = true ->
  let r := segment_cues d total ck segs in
  ordered64 (snd ck) (fst r) (snd (snd r)) /\ fnonneg (snd (snd r)) = true.
Proof.
  intros Hd. induction segs as [|seg segs IH]; intros ck Hc.
  - cbn. split; [apply fle_refl|exact Hc].
  - rewrite segment_cues_cons. cbv zeta.
    cbn [fst snd ordered64 cue_start cue_end].
    pose proof (@seg_duration_fnonneg d total seg Hd) as Hs.
    assert (Hn : fnonneg (fadd (snd ck) (seg_duration d total seg)) = true)
      by (apply fnonneg_add; assumption).
    destruct (IH ((fst ck + 1)%Z, fadd (snd ck) (seg_duration d total seg)) Hn)
      as [I1 I2].
    split; [|exact I2].
    split; [apply fle_refl|]. split; [now apply fle_add|exact I1].
Qed.

Lemma timeline_ordered64 (scs : list (scene float)) :
  Forall (fun sc => (0 <=? duration_of sc)%float = true) scs ->
  forall ck : clock float,
    fnonneg (snd ck) = true ->
    let r := timeline ck scs in
    ordered64 (snd ck) (fst r) (snd (snd r)) /\ fnonneg (snd (snd r)) = true.
Proof.
  induction 1 as [|sc scs Hd _ IH]; intros ck Hc.
  - cbn. split; [apply fle_refl|exact Hc].
  - rewrite timeline_cons. cbv zeta. cbn [fst snd].
    assert (S : ordered64 (snd ck) (fst (scene_cues ck sc))
                          (snd (snd (scene_cues ck sc)))
                /\ fnonneg (snd (snd (scene_cues ck sc))) = true).
    { destruct (blank sc) eqn:E.
      - rewrite (scene_cues_blank _ _ E). cbn [fst snd ordered64].
        pose proof (@leb_zero_fnonneg (duration_of sc) Hd) as Hn.
        split; [now apply fle_add|now apply fnonneg_add].
      - rewrite (scene_cues_nonblank _ _ E). cbv zeta.
        now apply segment_cues_ordered64. }
    destruct S as [S1 S2]. destruct (IH (snd (scene_cues ck sc)) S2) as [I1 I2].
    split; [|exact I2]. eapply ordered64_app; eauto.
Qed.

(** What is written was finite: [format_srt_time] raises otherwise. *)
Lemma format_srt_time_finite (x : float) ts :
  format_srt_time x = Some ts -> isfinite x = true.
Proof.
  intros H. destruct (isfinite x) eqn:E; [reflexivity|].
  rewrite (format_srt_time_None _ E) in H. discriminate.
Qed.

Lemma render_cues_finite (cs : list (cue float)) : forall ls,
  render_cues cs = Some ls ->
  Forall (fun c => isfinite (cue_start c) = true /\ isfinite (cue_end c) = true)
         cs.
Proof.
  induction cs as [|c cs IH]; intros ls H; [constructor|].
  cbn [render_cues] in H. unfold render_cue in H at 1.
  destruct (format_srt_time (cue_start c)) as [a|] eqn:Ea; [|discriminate].
  destruct (format_srt_time (cue_end c)) as [b|] eqn:Eb; [|discriminate].
  cbn [bind] in H.
  destruct (render_cues cs) as [ls'|] eqn:Er; [|discriminate].
  constructor; [|eapply IH; reflexivity].
  split; eapply format_srt_time_finite; eauto.
Qed.




Lemma timeline_split {F : Type} {num : PyFloat F} (pre post : list (scene F))
      (sc : scene F) (ck : clock F) :
  timeline ck (pre ++ sc :: post)
  = let r := timeline ck pre in
    let r1 := scene_cues (snd r) sc in
    let r2 := timeline (snd r1) post in
    (fst r ++ fst r1 ++ fst r2, snd r2).
Proof. rewrite timeline_app. cbv zeta. now rewrite timeline_cons. Qed.

Lemma fle_leb a b : fle a b -> isfinite b = true -> (a <=? b)%float = true.
Proof. intros H Hb. now destruct (H Hb). Qed.

Lemma generate_srt_rendered {F : Type} {num : PyFloat F}
      (data : video_data F) (out : pystr) :
  generate_srt data = Some out ->
  exists ls, render_cues (cues_of data) = Some ls /\ out = join newline ls.
Proof.
  rewrite generate_srt_cues. fold (cues_of data).
  destruct (render_cues (cues_of data)) as [ls|]; [|discriminate].
  cbn [bind]. intros H. injection H as <-. now exists ls.
Qed.



#[local] Set Warnings "-inexact-float".


(** The lines of a cue in the text: its index opens the block and its text
    is the third line. *)
Lemma render_cues_nth {F : Type} {num : PyFloat F} (cs : list (cue F)) :
  forall ls k c,
    render_cues cs = Some ls -> nth_error cs k = Some c ->
    nth_error ls (4 * k) = Some (str_int (cue_index c))
    /\ nth_error ls (4 * k + 2) = Some (cue_text c).
Proof.
  induction cs as [|c0 cs IH]; intros ls k c H Hk.
  - destruct k; discriminate.
  - cbn [render_cues] in H.
    destruct (render_cue c0) as [l|] eqn:El; [|discriminate].
    destruct (render_cues cs) as [ls'|] eqn:Er; [|discriminate].
    cbn [bind] in H. injection H as <-.
    destruct (render_cue_lines _ El) as (stamp & -> & _).
    destruct k as [|k].
    + cbn [nth_error] in Hk. injection Hk as <-. split; reflexivity.
    + cbn [nth_error] in Hk.
      replace (4 * S k)%nat with (S (S (S (S (4 * k))))) by lia.
      replace (S (S (S (S (4 * k)))) + 2)%nat
        with (S (S (S (S (4 * k + 2))))) by lia.
      cbn [app nth_error]. now apply IH.
Qed.

(** C7, on binary64 floats: whenever generate_srt returns, the cues it has
    written are numbered 1, 2, 3, ... in the order of the text; within one
    scene the end of a cue is exactly the start of the next; a
    whitespace-only scene writes no cue, keeps the index and moves the clock
    to clock + durationSeconds; and when no durationSeconds is negative a
    cue ends no later than any later cue starts, so that the start times
    never decrease. *)
Theorem cue_sequence_order (data : video_data float) (out : pystr) :
  generate_srt data = Some out ->
  exists ls,
    render_cues (cues_of data) = Some ls /\ out = join newline ls
    /\ (forall k c,
           nth_error (cues_of data) k = Some c ->
           cue_index c = (1 + Z.of_nat k)%Z
           /\ nth_error ls (4 * k) = Some (str_int (1 + Z.of_nat k)))
    /\ (forall pre sc post,
           get (scenes data) [] = pre ++ sc :: post ->
           let r := timeline (1%Z, of_int 0) pre in
           let r1 := scene_cues (snd r) sc in
           cues_of data = fst r ++ fst r1 ++ fst (timeline (snd r1) post)
           /\ (forall k c1 c2,
                  nth_error (fst r1) k = Some c1 ->
                  nth_error (fst r1) (S k) = Some c2 ->
                  cue_end c1 = cue_start c2)
           /\ (blank sc = true ->
               r1 = ([], (fst (snd r), (snd (snd r) + duration_of sc)%float))
               /\ forall st,
                   process_scene st sc
                   = Some {| lines := lines st;
                             subtitle_index := subtitle_index st;
                             cum_time := (cum_time st + duration_of sc)%float |}))
    /\ (Forall (fun sc => (0 <=? duration_of sc)%float = true)
               (get (scenes data) []) ->
        forall j k c1 c2,
          (j < k)%nat ->
          nth_error (cues_of data) j = Some c1 ->
          nth_error (cues_of data) k = Some c2 ->
          (cue_start c1 <=? cue_start c2)%float = true
          /\ (cue_end c1 <=? cue_start c2)%float = true).
Proof.
  intros H. destruct (generate_srt_rendered data H) as (ls & Er & Eo).
  exists ls. split; [exact Er|]. split; [exact Eo|].
  pose proof (render_cues_finite _ Er) as Hfin.
  split; [|split].
  - intros k c Hk.
    assert (Hi : cue_index c = (1 + Z.of_nat k)%Z).
    { eapply indexed_nth; [|exact Hk].
      apply (timeline_indexed (get (scenes data) []) (1%Z, of_int 0)). }
    split; [exact Hi|]. rewrite <- Hi.
    now destruct (render_cues_nth _ _ Er Hk).
  - intros pre sc post E r r1.
    split; [unfold cues_of; rewrite E, timeline_split; reflexivity|].
    split.
    + intros k c1 c2 H1 H2. eapply contiguous_nth; [|exact H1|exact H2].
      apply (scene_cues_structure (snd r) sc).
    + intros Hb. split.
      * unfold r1. now rewrite (scene_cues_blank _ _ Hb).
      * intros st. exact (@process_scene_blank float binary64_float st sc Hb).
  - intros Hd j k c1 c2 Hjk H1 H2.
    destruct (timeline_ordered64 Hd (1%Z, of_int 0) fnonneg_of_int_0) as [Ho _].
    fold (cues_of data) in Ho.
    destruct (@ordered64_nth (cues_of data) _ _ j k c1 c2 Ho Hjk H1 H2)
      as [Ha Hb].
    rewrite Forall_forall in Hfin.
    destruct (Hfin c2 (nth_error_In _ _ H2)) as [Fs _].
    split; [|now apply fle_leb].
    apply fle_leb; [|exact Fs]. eapply fle_trans; eauto.
Qed.

Lemma cue_sequence_order_witness :
  let data := doc [(py "Hello you. Hello", 4%float); (py "  ", 3%float);
                   (py "Hi.", 2%float)] in
  let d := Cue 0%Z 0%float 0%float [] in
  cue_index (nth 2 (cues_of data) d) = 3%Z
  /\ cue_end (nth 0 (cues_of data) d) = cue_start (nth 1 (cues_of data) d)
  /\ scene_cues (3%Z, 4%float) (Scene (Some (py "  ")) (Some 3%float))
     = ([], (3%Z, (4 + 3)%float))
  /\ (cue_start (nth 1 (cues_of data) d) <=? cue_start (nth 2 (cues_of data) d))%float
     = true
  /\ (cue_end (nth 1 (cues_of data) d) <=? cue_start (nth 2 (cues_of data) d))%float
     = true.
Proof.
  intros data d.
  assert (H : generate_srt data
              = Some (join newline
                        [py "1"; py "00:00:00,000 --> 00:00:02,666";
                         py "Hello you."; py "";
                         py "2"; py "00:00:02,666 --> 00:00:04,000";
                         py "Hello"; py "";
                         py "3"; py "00:00:07,000 --> 00:00:09,000";
                         py "Hi."; py ""]))
    by (vm_compute; reflexivity).
  destruct (cue_sequence_order data H) as (ls & _ & _ & H1 & H2 & H3).
  assert (Ec : cues_of data
               = [nth 0 (cues_of data) d; nth 1 (cues_of data) d;
                  nth 2 (cues_of data) d])
    by (vm_compute; reflexivity).
  split; [|split; [|split]].
  - apply (H1 2%nat). rewrite Ec at 1. reflexivity.
  - destruct (H2 [] (Scene (Some (py "Hello you. Hello")) (Some 4%float))
                 [Scene (Some (py "  ")) (Some 3%float);
                  Scene (Some (py "Hi.")) (Some 2%float)] eq_refl)
      as (_ & H4 & _).
    apply (H4 0%nat); vm_compute; reflexivity.
  - destruct (H2 [Scene (Some (py "Hello you. Hello")) (Some 4%float)]
                 (Scene (Some (py "  ")) (Some 3%float))
                 [Scene (Some (py "Hi.")) (Some 2%float)] eq_refl)
      as (_ & _ & H5).
    destruct (H5 eq_refl) as [H6 _].
    etransitivity; [|etransitivity; [exact H6|]]; vm_compute; reflexivity.
  - apply (H3 ltac:(repeat constructor) 1%nat 2%nat); [lia| |];
      rewrite Ec at 1; reflexivity.
Defined.
